(** * Monte Carlo tree search of [ggpa/mcts_bot.py]

    A shallow embedding of [TreeNode] and [MCTSAgent.choose_card].

    Python objects are mutable and shared: a node is reached both from its
    parent's [children] dictionary and from its children's [parent] field.
    The tree is therefore kept in an arena ([heap]): a node is the index of
    its record, [parent] and [children] hold indices, and a new [TreeNode]
    is appended at the end.  A node that is dropped from a dictionary stays
    in the arena, unreachable, as it stays in memory in Python until it is
    collected.

    Scores are Python floats; they are idealised as rationals ([Q]).  The
    two library functions on floats that have no rational counterpart,
    [math.sqrt] and [math.log], are parameters of the development.

    [random.choice] reads the global generator; the generator is the list
    [rng] of the numbers it will deliver (zeros once the list is used up).

    Recursion and the [while] loop of [rollout] are bounded by fuel;
    [OutOfFuel] is the run that has not returned yet. *)

From Stdlib Require Import QArith String.
From stdpp Require Import base list.

Set Default Proof Using "Type".
Local Open Scope nat_scope.

(** ** Python dictionaries, in insertion order *)

Section Dict.
Context {K V : Type} `{EqDecision K}.

Fixpoint dict_get (k : K) (d : list (K * V)) : option V :=
  match d with
  | [] => None
  | (k', v) :: d' => if decide (k = k') then Some v else dict_get k d'
  end.

(** [d[k] = v]: an existing key keeps its place, a new key goes last. *)
Fixpoint dict_set (k : K) (v : V) (d : list (K * V)) : list (K * V) :=
  match d with
  | [] => [(k, v)]
  | (k', v') :: d' =>
      if decide (k = k') then (k', v) :: d' else (k', v') :: dict_set k v d'
  end.

Definition dict_mem (k : K) (d : list (K * V)) : bool :=
  match dict_get k d with Some _ => true | None => false end.

Definition dict_keys (d : list (K * V)) : list K := d.*1.
Definition dict_values (d : list (K * V)) : list V := d.*2.
End Dict.

(** ** Numbers *)

Definition Qltb (x y : Q) : bool := negb (Qle_bool y x).

(** [sum(l)] *)
Definition Qsum (l : list Q) : Q := fold_left Qplus l 0%Q.

Definition Qnat (n : nat) : Q := inject_Z (Z.of_nat n).

(** ** Exceptions and results *)

Inductive exn := IndexError | ValueError | KeyError.

(** ** [random.choice] *)

Definition draw (g : list nat) : nat * list nat :=
match g with
| [] => (0, [])
| r :: g' => (r, g')
end.

(** [seq[randbelow(len(seq))]]; [None] is the [IndexError] on an empty
  sequence. *)
Definition choice {A : Type} (l : list A) (r : nat) : option A :=
l !! (r mod length l).

(** ** A small battle, to run the search on

    A battle lasts [turns] more turns; while turns are left the agent plays
    [X] (two points) or [Y] (none).  [X2] is a second instance of [X]: it
    has the key of [X]. *)

Module Toy.

Inductive move := X | Y | X2.

Record battle := mkBattle { turns : nat; points : Z }.

Definition key (m : move) : nat :=
  match m with
  | X | X2 => 0
  | Y => 1
  end.

Definition get_actions (b : battle) : list move :=
  match turns b with
  | 0 => []
  | S _ => [X; Y]
  end.

Definition gain (m : move) : Z :=
  match m with
  | X | X2 => 2
  | Y => 0
  end.

Definition step (b : battle) (m : move) : battle :=
  mkBattle (pred (turns b)) (points b + gain m).

Definition apply_action (b : battle) (k : nat) : battle :=
  step b (match k with 0 => X | _ => Y end).

Definition ended (b : battle) : bool := Nat.eqb (turns b) 0.

Definition score (b : battle) : Q := inject_Z (points b).

(** Rational stand-ins for [math.sqrt] and [math.log]. *)
Definition sqrt_approx (q : Q) : Q := ((q + 1) / 2)%Q.
Definition log_approx (q : Q) : Q := (q - 1)%Q.

Definition to_action (m : move) (b : battle) : move := m.

Definition copy_undeterministic (b : battle) (g : list nat) : battle * list nat :=
  (b, g).

(** The game state lists the options that the base class enumerates. *)
Definition get_choose_card_options (gs : list move) (b : battle) : list move := gs.

(** A battle of two turns, and a battle that is over. *)
Definition start : battle := mkBattle 2 0.
Definition over : battle := mkBattle 0 0.

End Toy.

Section MCTS.
(** The collaborators of the search: the battle state, its actions and
    their keys.  A state carries whatever hidden randomness [step] will
    resolve, so that advancing it is a function. *)
Context {State Action Key : Type} `{EqDecision Key}.
Variable key : Action -> Key.
Variable get_actions : State -> list Action.
Variable state_step : State -> Action -> State.
(** [select] hands [apply_action] the dictionary key of the child. *)
Variable apply_action : State -> Key -> State.
Variable ended : State -> bool.
Variable state_score : State -> Q.
Variable fsqrt flog : Q -> Q.
(** What [choose_card] needs besides: the game state it is handed, the
    actions of the game engine, [Action.to_action],
    [BattleState.copy_undeterministic] (which may read the generator) and
    [GGPA.get_choose_card_options], inherited from the base class. *)
Context {GameState ExtAction : Type}.
Variable to_action : Action -> State -> ExtAction.
Variable copy_undeterministic : State -> list nat -> State * list nat.
Variable get_choose_card_options : GameState -> State -> list ExtAction.

(** *** [TreeNode] *)

Record TreeNode := mkNode {
  param : Q;
  parent : option nat;
  action : option Action;
  children : list (Key * nat);
  results : list Q;
  visits : nat
}.

(** [TreeNode(param, parent, action)] *)
Definition new_node (p : Q) (par : option nat) (a : option Action) : TreeNode :=
  mkNode p par a [] [] 0.

(** Ghost events: every call of [backpropagate] on a node, and every
    [rollout] whose loop has finished. *)
Inductive Event :=
| EvBackprop (n : nat) (r : Q)
| EvRollout (n : nat).

Record World := mkWorld {
  heap : list TreeNode;
  rng : list nat;
  trace : list Event
}.

Inductive outcome (A : Type) :=
| Ok (a : A) (w : World)
| Raise (e : exn) (w : World)
| OutOfFuel.
Arguments Ok {A} a w.
Arguments Raise {A} e w.
Arguments OutOfFuel {A}.

Definition node (w : World) (n : nat) : TreeNode :=
  default (new_node 0%Q None None) (heap w !! n).

Definition set_node (w : World) (n : nat) (nd : TreeNode) : World :=
  mkWorld (<[n := nd]> (heap w)) (rng w) (trace w).

Definition log (w : World) (e : Event) : World :=
  mkWorld (heap w) (rng w) (trace w ++ [e]).

Definition set_rng (w : World) (g : list nat) : World :=
  mkWorld (heap w) g (trace w).

(** A tree that consists of its root. *)
Definition fresh (p : Q) (g : list nat) : World :=
  mkWorld [new_node p None None] g [].

(** *** [backpropagate] *)

Definition record_result (nd : TreeNode) (r : Q) : TreeNode :=
  mkNode (param nd) (parent nd) (action nd) (children nd)
         (results nd ++ [r]) (S (visits nd)).

(** [self.visits += 1; self.results.append(result)] on node [n]. *)
Definition record (w : World) (n : nat) (r : Q) : World :=
  log (set_node w n (record_result (node w n) r)) (EvBackprop n r).

Fixpoint backpropagate (fuel : nat) (n : nat) (r : Q) (w : World) : outcome unit :=
  match fuel with
  | 0 => OutOfFuel
  | S fuel' =>
      let w1 := record w n r in
      match parent (node w1 n) with
      | Some p => backpropagate fuel' p r w1
      | None => Ok tt w1
      end
  end.

(** *** [rollout] *)

Fixpoint rollout_loop (fuel : nat) (s : State) (g : list nat)
  : option (State * list nat) :=
  match fuel with
  | 0 => None
  | S fuel' =>
      if ended s then Some (s, g)
      else
        let actions := get_actions s in
        match choice actions (draw g).1 with
        | None => Some (s, g)
        | Some a => rollout_loop fuel' (state_step s a) (draw g).2
        end
  end.

Definition rollout (fuel : nat) (n : nat) (s : State) (w : World) : outcome State :=
  match rollout_loop fuel s (rng w) with
  | None => OutOfFuel
  | Some (s', g') =>
      let w1 := log (set_rng w g') (EvRollout n) in
      match backpropagate fuel n (state_score s') w1 with
      | Ok _ w2 => Ok s' w2
      | Raise e w2 => Raise e w2
      | OutOfFuel => OutOfFuel
      end
  end.

(** *** [expand] *)

Definition add_child (nd : TreeNode) (k : Key) (c : nat) : TreeNode :=
  mkNode (param nd) (parent nd) (action nd) (dict_set k c (children nd))
         (results nd) (visits nd).

(** [child = TreeNode(self.param, parent=self, action=action)] and
    [self.children[action.key()] = child]; the child is the next node of
    the arena. *)
Definition attach (w : World) (n : nat) (a : Action) : World :=
  let nd := node w n in
  let c := length (heap w) in
  let child := new_node (param nd) (Some n) (Some a) in
  mkWorld (<[n := add_child nd (key a) c]> (heap w) ++ [child]) (rng w) (trace w).

Definition expand (fuel : nat) (n : nat) (s : State) (unexplored : list Action)
           (w : World) : outcome State :=
  match choice unexplored (draw (rng w)).1 with
  | None => Raise IndexError w
  | Some a =>
      let s1 := state_step s a in
      let w1 := attach (set_rng w (draw (rng w)).2) n a in
      rollout fuel (length (heap w)) s1 w1
  end.

(** *** [step] *)

Definition unexplored_of (nd : TreeNode) (actions : list Action) : list Action :=
  filter (fun a => dict_mem (key a) (children nd) = false) actions.

Fixpoint step (fuel : nat) (n : nat) (s : State) (w : World) : outcome State :=
  match fuel with
  | 0 => OutOfFuel
  | S fuel' =>
      let actions := get_actions s in
      match actions with
      | [] => Ok s w
      | _ :: _ =>
          let nd := node w n in
          match unexplored_of nd actions with
          | (_ :: _) as unexplored => expand fuel' n s unexplored w
          | [] =>
              match choice actions (draw (rng w)).1 with
              | None => Raise IndexError w
              | Some a =>
                  let s1 := state_step s a in
                  let w1 := set_rng w (draw (rng w)).2 in
                  match dict_get (key a) (children nd) with
                  | Some c => step fuel' c s1 w1
                  | None => Ok s1 w1
                  end
              end
          end
      end
  end.

(** *** [get_best] *)

(** [sum(child.results) / child.visits] *)
Definition mean (nd : TreeNode) : Q := (Qsum (results nd) / Qnat (visits nd))%Q.

(** [avg > best_avg], where [None] is [-float("inf")]. *)
Definition above (avg : Q) (best_avg : option Q) : bool :=
  match best_avg with
  | None => true
  | Some b => Qltb b avg
  end.

(** One turn of the loop over [self.children.values()]; the accumulator
    is the pair of [best] and [best_avg]. *)
Definition best_visit (w : World) (acc : option nat * option Q) (c : nat)
  : option nat * option Q :=
  let nd := node w c in
  if Nat.ltb 0 (visits nd) then
    if above (mean nd) acc.2 then (Some c, Some (mean nd)) else acc
  else acc.

Definition best_child (w : World) (cs : list nat) : option nat :=
  (fold_left (best_visit w) cs (None, None)).1.

Definition get_best (n : nat) (s : State) (w : World) : option Action * World :=
  match children (node w n) with
  | [] =>
      match choice (get_actions s) (draw (rng w)).1 with
      | None => (None, w)
      | Some a => (Some a, set_rng w (draw (rng w)).2)
      end
  | (_ :: _) as d =>
      match best_child w (dict_values d) with
      | Some c => (action (node w c), w)
      | None => (None, w)
      end
  end.

(** *** [select] *)

(** [max(iterable, key=f)]: the first element whose key no later one
    exceeds; [None] is the [ValueError] on an empty iterable. *)
Definition py_max {A : Type} (f : A -> Q) (l : list A) : option A :=
  match l with
  | [] => None
  | x :: l' =>
      Some (fold_left (fun best y => if Qltb (f best) (f y) then y else best) l' x)
  end.

(** The key of [max] in [select], for the child [c] of [nd]. *)
Definition ucb (nd c : TreeNode) : Q :=
  ((match results c with
    | [] => 0
    | _ :: _ => Qsum (results c) / Qnat (length (results c))
    end)
   + param nd * fsqrt (flog (Qnat (length (results nd) + 1))
                       / Qnat (1 + length (results c))))%Q.

Fixpoint select (fuel : nat) (n : nat) (s : State) (w : World) : outcome State :=
  match fuel with
  | 0 => OutOfFuel
  | S fuel' =>
      let available_actions := get_actions s in
      let nd := node w n in
      if Nat.ltb (length (children nd)) (length available_actions) then
        expand fuel' n s available_actions w
      else
        match py_max (fun item => ucb nd (node w item.2)) (children nd) with
        | None => Raise ValueError w
        | Some (best_action, _) =>
            let s1 := apply_action s best_action in
            match dict_get best_action (children nd) with
            | None => Raise KeyError w
            | Some c => select fuel' c s1 w
            end
        end
  end.

(** *** [score] *)

(** [TreeNode.score]: the state's own score. *)
Definition score (s : State) : Q := state_score s.

(** *** [print_tree] *)

(** A printed line: the indentation, the name ([None] is ROOT), the
    visits and the average; the text layout is left out. *)
Inductive Line :=
| TreeLine (indent : nat) (name : option Key) (v : nat) (avg : Q)
| TextLine (msg : string).

Fixpoint print_tree (fuel : nat) (w : World) (n : nat) (indent : nat)
  : option (list Line) :=
  match fuel with
  | 0 => None
  | S fuel' =>
      let nd := node w n in
      let avg := if Nat.ltb 0 (visits nd) then mean nd else 0%Q in
      let below :=
        fold_left (fun acc c =>
                     match acc, print_tree fuel' w c (indent + 1) with
                     | Some ls, Some ls' => Some (ls ++ ls')
                     | _, _ => None
                     end)
                  (dict_values (children nd)) (Some []) in
      match below with
      | Some ls => Some (TreeLine indent (key <$> action nd) (visits nd) avg :: ls)
      | None => None
      end
  end.

(** *** [MCTSAgent.choose_card] *)

Inductive verdict :=
| Decided (d : ExtAction) (out : list Line) (g : list nat)
| Failed (e : exn) (out : list Line)
| Unfinished.

(** The loop [for i in range(self.iterations)] on the tree rooted at 0. *)
Fixpoint run_iterations (fuel : nat) (iterations : nat) (bs : State) (w : World)
  : outcome unit :=
  match iterations with
  | 0 => Ok tt w
  | S i =>
      let (sample_state, g) := copy_undeterministic bs (rng w) in
      match step fuel 0 sample_state (set_rng w g) with
      | Ok _ w' => run_iterations fuel i bs w'
      | Raise e w' => Raise e w'
      | OutOfFuel => OutOfFuel
      end
  end.

Definition warning : string := "WARNING: MCTS did not return any action".

(** The part of [choose_card] after the loop, on the tree [w]. *)
Definition conclude (fuel : nat) (verbose : bool) (game_state : GameState)
           (battle_state : State) (w : World) : verdict :=
  let (best_action, w') := get_best 0 battle_state w in
  match (if verbose then print_tree fuel w' 0 0 else Some []) with
  | None => Unfinished
  | Some out =>
      match best_action with
      | None =>
          let options := get_choose_card_options game_state battle_state in
          match choice options (draw (rng w')).1 with
          | None => Failed IndexError (out ++ [TextLine warning])
          | Some d => Decided d (out ++ [TextLine warning]) (draw (rng w')).2
          end
      | Some a => Decided (to_action a battle_state) out (rng w')
      end
  end.

Definition choose_card (fuel : nat) (iterations : nat) (verbose : bool) (p : Q)
           (game_state : GameState) (battle_state : State) (g : list nat)
  : verdict :=
  match get_actions battle_state with
  | [a] => Decided (to_action a battle_state) [] g
  | _ =>
      match run_iterations fuel iterations battle_state (fresh p g) with
      | OutOfFuel => Unfinished
      | Raise e _ => Failed e []
      | Ok _ w => conclude fuel verbose game_state battle_state w
      end
  end.

(** *** [choose_agent_target] and [choose_card_target] *)

(** [agent_list[0]]; the right-hand side is the [IndexError] of an empty
    list.  Neither the battle state nor the name of the list is read. *)
Definition choose_agent_target {Agent : Type} (battle_state : State)
           (list_name : string) (agent_list : list Agent) : Agent + exn :=
  match agent_list with
  | [] => inr IndexError
  | a :: _ => inl a
  end.

(** [card_list[0]] *)
Definition choose_card_target {Card : Type} (battle_state : State)
           (list_name : string) (card_list : list Card) : Card + exn :=
  match card_list with
  | [] => inr IndexError
  | c :: _ => inl c
  end.

(** ** Invariants of the tree *)

Definition is_backprop (n : nat) (e : Event) : bool :=
  match e with
  | EvBackprop m _ => Nat.eqb m n
  | EvRollout _ => false
  end.

Definition is_rollout (e : Event) : bool :=
  match e with
  | EvBackprop _ _ => false
  | EvRollout _ => true
  end.

(** The calls of [backpropagate] on node [n] so far. *)
Definition backprop_count (n : nat) (tr : list Event) : nat :=
  length (List.filter (is_backprop n) tr).

(** The rollouts that have reached the end of their loop so far. *)
Definition rollout_count (tr : list Event) : nat :=
  length (List.filter is_rollout tr).

(** What every tree built by the operations satisfies: parents come before
    their children in the arena, a dictionary entry leads to a node whose
    parent is the owner and whose action has the entry's key, keys are not
    repeated, and the statistics agree with the calls of [backpropagate]. *)
Record wf (w : World) : Prop := mk_wf {
  wf_parent : forall n p, parent (node w n) = Some p -> p < n;
  wf_child : forall n k c,
    (k, c) ∈ children (node w n) ->
    n < c < length (heap w)
    /\ parent (node w c) = Some n
    /\ key <$> action (node w c) = Some k;
  wf_keys : forall n, NoDup (dict_keys (children (node w n)));
  wf_visits : forall n, visits (node w n) = length (results (node w n));
  wf_count : forall n, visits (node w n) = backprop_count n (trace w);
  wf_rooted : forall n, 0 < n < length (heap w) -> is_Some (parent (node w n))
}.

(** The world an operation leaves behind, whether it returned or raised. *)
Definition world_after {A : Type} (o : outcome A) : option World :=
  match o with
  | Ok _ w => Some w
  | Raise _ w => Some w
  | OutOfFuel => None
  end.

(** The world after [o], or [w] when [o] has not returned. *)
Definition settle {A : Type} (o : outcome A) (w : World) : World :=
  default w (world_after o).

(** The trees reachable from a fresh root by calls of the methods on nodes
    of the arena; the generator may be read by others in between. *)
Inductive reachable : World -> Prop :=
| reach_fresh p g : reachable (fresh p g)
| reach_rng w g : reachable w -> reachable (set_rng w g)
| reach_step w fuel n s w' :
    reachable w -> n < length (heap w) ->
    world_after (step fuel n s w) = Some w' -> reachable w'
| reach_expand w fuel n s l w' :
    reachable w -> n < length (heap w) ->
    world_after (expand fuel n s l w) = Some w' -> reachable w'
| reach_rollout w fuel n s w' :
    reachable w -> n < length (heap w) ->
    world_after (rollout fuel n s w) = Some w' -> reachable w'
| reach_backpropagate w fuel n r w' :
    reachable w -> n < length (heap w) ->
    world_after (backpropagate fuel n r w) = Some w' -> reachable w'
| reach_select w fuel n s w' :
    reachable w -> n < length (heap w) ->
    world_after (select fuel n s w) = Some w' -> reachable w'
| reach_get_best w n s :
    reachable w -> n < length (heap w) ->
    reachable (get_best n s w).2.

(** [N] iterations of [step] on the root of a fresh tree, each of which
    returned after one rollout. *)
Inductive iterated : nat -> World -> Prop :=
| iterated_O p g : iterated 0 (fresh p g)
| iterated_S N w g fuel s s' w' :
    iterated N w ->
    step fuel 0 s (set_rng w g) = Ok s' w' ->
    rollout_count (trace w') = S (rollout_count (trace w)) ->
    iterated (S N) w'.

(** What an operation may do to the tree: the arena grows, old nodes keep
    their parameter, parent and action, and their results are extended. *)
Record grows (w w' : World) : Prop := mk_grows {
  gr_len : length (heap w) <= length (heap w');
  gr_param : forall m, m < length (heap w) -> param (node w' m) = param (node w m);
  gr_parent : forall m, m < length (heap w) -> parent (node w' m) = parent (node w m);
  gr_action : forall m, m < length (heap w) -> action (node w' m) = action (node w m);
  gr_results : forall m, results (node w m) `prefix_of` results (node w' m);
  gr_visits : forall m, visits (node w m) <= visits (node w' m)
}.

(** No dictionary entry of an old node is removed or redirected. *)
Definition keeps_children (w w' : World) : Prop :=
  forall m k c,
    dict_get k (children (node w m)) = Some c ->
    dict_get k (children (node w' m)) = Some c.



(** What a run of [backpropagate] from some node ([k = 0]) or a [rollout]
    ([k = 1]) leaves behind: the same nodes with the same dictionaries, one
    more visit at the root, [k] more rollouts. *)
Record stats_post (k : nat) (w w' : World) : Prop := mk_stats_post {
  st_wf : wf w';
  st_len : length (heap w') = length (heap w);
  st_children : forall m, children (node w' m) = children (node w m);
  st_grows : grows w w';
  st_root : visits (node w' 0) = S (visits (node w 0));
  st_rollouts : rollout_count (trace w') = k + rollout_count (trace w)
}.

(** The dictionaries of the nodes before [c] are untouched. *)
Definition same_below (c : nat) (w w' : World) : Prop :=
  forall m, m < c -> children (node w' m) = children (node w m).

(** The root is visited once per rollout, and a call runs at most one. *)
Record balanced (w w' : World) : Prop := mk_balanced {
  bal_root :
    visits (node w' 0) + rollout_count (trace w)
    = visits (node w 0) + rollout_count (trace w');
  bal_lower : rollout_count (trace w) <= rollout_count (trace w');
  bal_upper : rollout_count (trace w') <= S (rollout_count (trace w))
}.

Record step_post (n : nat) (w w' : World) : Prop := mk_step_post {
  sp_wf : wf w';
  sp_grows : grows w w';
  sp_keeps : keeps_children w w';
  sp_below : same_below n w w';
  sp_balanced : balanced w w'
}.

Record select_post (w w' : World) : Prop := mk_select_post {
  sl_wf : wf w';
  sl_grows : grows w w';
  sl_balanced : balanced w w'
}.

(** What the loop of [get_best] has established after the children [seen]:
    either none of them was visited, or [best] is a visited one whose mean
    no visited one exceeds, and [best_avg] is its mean. *)
Definition best_inv (w : World) (seen : list nat) (acc : option nat * option Q) : Prop :=
  match acc with
  | (None, None) => forall c, c ∈ seen -> visits (node w c) = 0
  | (Some c, Some q) =>
      q = mean (node w c) /\ c ∈ seen /\ 0 < visits (node w c)
      /\ forall c', c' ∈ seen -> 0 < visits (node w c') ->
                    (mean (node w c') <= mean (node w c))%Q
  | _ => False
  end.

(** ** Further notions *)

(** The node [n] and its ancestors, nearest first, as far as [fuel] goes. *)
Fixpoint ancestors (fuel : nat) (w : World) (n : nat) : list nat :=
  match fuel with
  | 0 => []
  | S fuel' =>
      n :: match parent (node w n) with
           | Some p => ancestors fuel' w p
           | None => []
           end
  end.

(** Every node stored in a dictionary has been visited. *)
Definition children_visited (w : World) : Prop :=
  forall n k c, (k, c) ∈ children (node w n) -> 0 < visits (node w c).

(** The indentation of a line of the tree. *)
Definition line_indent (l : Line) : option nat :=
  match l with
  | TreeLine i _ _ _ => Some i
  | TextLine _ => None
  end.

(** What the loop of [choose_card] keeps: a well-formed tree with one node
    per rollout besides the root, whose root counts the rollouts. *)
Record searched (w : World) : Prop := mk_searched {
  se_wf : wf w;
  se_root : visits (node w 0) = rollout_count (trace w);
  se_size : length (heap w) = S (rollout_count (trace w))
}.


(** The visits of the children in the dictionary of [n], summed. *)
Definition child_visits (w : World) (n : nat) : nat :=
  sum_list_with (fun c => visits (node w c)) (dict_values (children (node w n))).

(** The rollout that created a node; the root was not created by one. *)
Definition own_visit (n : nat) : nat := if decide (n = 0) then 0 else 1.

(** Every node has its own visit and those of its children, but for node
    [x] (if any), which is one visit short: the node [backpropagate] is about
    to record at. *)
Definition pending (w : World) (x : option nat) : Prop :=
  forall m, m < length (heap w) ->
    visits (node w m) + (if decide (x = Some m) then 1 else 0)
    = own_visit m + child_visits w m.

(** Every node with a parent is in the dictionary of that parent. *)
Definition all_attached (w : World) : Prop :=
  forall q m, q < length (heap w) -> parent (node w q) = Some m ->
              exists k, (k, q) ∈ children (node w m).

(** The trees built by [step] alone, on any node, from a fresh root. *)
Inductive stepped : World -> Prop :=
| stepped_fresh p g : stepped (fresh p g)
| stepped_rng w g : stepped w -> stepped (set_rng w g)
| stepped_step w fuel n s s' w' :
    stepped w -> n < length (heap w) ->
    step fuel n s w = Ok s' w' -> stepped w'.

(** ** Dictionaries *)

Section DictFacts.
Context {V : Type}.
Implicit Types (d : list (Key * V)) (k : Key) (v : V).

Lemma dict_get_elem k v d : dict_get k d = Some v -> (k, v) ∈ d.
Proof.
  induction d as [|[k' v'] d IH]; simpl; [done|].
  destruct (decide (k = k')) as [->|Hne].
  - intros [= ->]. apply list_elem_of_here.
  - intros Hget. apply list_elem_of_further. auto.
Qed.

Lemma dict_get_None k d : dict_get k d = None <-> k ∉ dict_keys d.
Proof.
  unfold dict_keys.
  induction d as [|[k' v'] d IH]; simpl.
  - split; [intros _; apply not_elem_of_nil | done].
  - destruct (decide (k = k')) as [->|Hne].
    + split; [done|]. intros Hn. exfalso. apply Hn, list_elem_of_here.
    + rewrite IH. rewrite not_elem_of_cons. split; [by intros | by intros [_ ?]].
Qed.

Lemma dict_get_NoDup k v d :
  NoDup (dict_keys d) -> (k, v) ∈ d -> dict_get k d = Some v.
Proof.
  unfold dict_keys.
  induction d as [|[k' v'] d IH]; simpl; intros Hnd Hin.
  - by apply elem_of_nil in Hin.
  - apply NoDup_cons in Hnd as [Hk' Hnd].
    apply elem_of_cons in Hin as [[= -> ->]|Hin].
    + by rewrite decide_True.
    + destruct (decide (k = k')) as [->|Hne]; [|by auto].
      exfalso. apply Hk'. apply list_elem_of_fmap. by exists (k', v).
Qed.

Lemma dict_set_fresh k v d :
  dict_get k d = None -> dict_set k v d = d ++ [(k, v)].
Proof.
  induction d as [|[k' v'] d IH]; simpl; [done|].
  destruct (decide (k = k')); [done|]. intros Hget. by rewrite IH.
Qed.

Lemma dict_set_elem k v k' v' d :
  (k', v') ∈ dict_set k v d -> (k', v') = (k, v) \/ (k', v') ∈ d.
Proof.
  induction d as [|[k0 v0] d IH]; simpl.
  - intros Hin. apply list_elem_of_singleton in Hin. by left.
  - destruct (decide (k = k0)) as [->|Hne]; intros Hin.
    + apply elem_of_cons in Hin as [Heq|Hin]; [by left|].
      right. by apply list_elem_of_further.
    + apply elem_of_cons in Hin as [Heq|Hin].
      * right. rewrite Heq. apply list_elem_of_here.
      * destruct (IH Hin) as [?|?]; [by left|].
        right. by apply list_elem_of_further.
Qed.

Lemma dict_set_keys k v d :
  dict_get k d <> None -> dict_keys (dict_set k v d) = dict_keys d.
Proof.
  unfold dict_keys.
  induction d as [|[k0 v0] d IH]; simpl; [done|].
  destruct (decide (k = k0)) as [->|Hne]; simpl; [done|].
  intros Hget. f_equal. by apply IH.
Qed.

Lemma dict_set_NoDup k v d :
  NoDup (dict_keys d) -> NoDup (dict_keys (dict_set k v d)).
Proof.
  intros Hnd. destruct (dict_get k d) as [v0|] eqn:Hget.
  - rewrite dict_set_keys; [done | by rewrite Hget].
  - rewrite dict_set_fresh by done. unfold dict_keys in *.
    rewrite fmap_app. simpl. apply NoDup_app. split; [done|].
    split; [|apply NoDup_singleton].
    intros x Hx Hx'. apply list_elem_of_singleton in Hx' as ->.
    by apply dict_get_None in Hget.
Qed.

Lemma dict_get_set_eq k v d : dict_get k (dict_set k v d) = Some v.
Proof.
  induction d as [|[k0 v0] d IH]; simpl.
  - by rewrite decide_True.
  - destruct (decide (k = k0)) as [->|Hne]; simpl.
    + by rewrite decide_True.
    + by rewrite decide_False.
Qed.

Lemma dict_get_set_ne k k' v d :
  k <> k' -> dict_get k' (dict_set k v d) = dict_get k' d.
Proof.
  intros Hne.
  induction d as [|[k0 v0] d IH]; simpl.
  - destruct (decide (k' = k)); congruence.
  - destruct (decide (k = k0)) as [->|Hne0]; simpl.
    + destruct (decide (k' = k0)); congruence.
    + by rewrite IH.
Qed.

Lemma dict_mem_false k d : dict_mem k d = false <-> dict_get k d = None.
Proof. unfold dict_mem. destruct (dict_get k d); split; congruence. Qed.

End DictFacts.

(** ** Reading and writing the arena *)

Lemma node_lookup w n nd : heap w !! n = Some nd -> node w n = nd.
Proof. unfold node. by intros ->. Qed.

Lemma node_ge w n : length (heap w) <= n -> node w n = new_node 0 None None.
Proof. intros Hn. unfold node. by rewrite lookup_ge_None_2. Qed.

Lemma node_record w n r m :
  n < length (heap w) ->
  node (record w n r) m
  = if decide (m = n) then record_result (node w n) r else node w m.
Proof.
  intros Hn. unfold record, node at 1. simpl.
  destruct (decide (m = n)) as [->|Hne].
  - by rewrite list_lookup_insert_eq.
  - by rewrite list_lookup_insert_ne.
Qed.

Lemma node_attach w n a m :
  n < length (heap w) ->
  node (attach w n a) m
  = if decide (m = n) then add_child (node w n) (key a) (length (heap w))
    else if decide (m = length (heap w))
         then new_node (param (node w n)) (Some n) (Some a)
         else node w m.
Proof.
  intros Hn. unfold attach, node at 1. simpl.
  destruct (decide (m = n)) as [->|Hne].
  - rewrite lookup_app_l by (by rewrite length_insert).
    by rewrite list_lookup_insert_eq.
  - destruct (decide (m = length (heap w))) as [->|Hne'].
    + rewrite lookup_app_r by (by rewrite length_insert).
      rewrite length_insert. by rewrite Nat.sub_diag.
    + destruct (decide (m < length (heap w))) as [Hlt|Hge].
      * rewrite lookup_app_l by (by rewrite length_insert).
        by rewrite list_lookup_insert_ne.
      * rewrite (node_ge w m) by lia.
        rewrite lookup_ge_None_2; [done|].
        rewrite length_app, length_insert. simpl. lia.
Qed.

Lemma length_record w n r : length (heap (record w n r)) = length (heap w).
Proof. unfold record. simpl. apply length_insert. Qed.

Lemma length_attach w n a : length (heap (attach w n a)) = S (length (heap w)).
Proof. unfold attach. simpl. rewrite length_app, length_insert. simpl. lia. Qed.

(** ** Counting events *)

Lemma backprop_count_snoc n tr e :
  backprop_count n (tr ++ [e])
  = backprop_count n tr + (if is_backprop n e then 1 else 0).
Proof.
  unfold backprop_count. rewrite List.filter_app, length_app. simpl.
  by destruct (is_backprop n e).
Qed.

Lemma rollout_count_snoc tr e :
  rollout_count (tr ++ [e])
  = rollout_count tr + (if is_rollout e then 1 else 0).
Proof.
  unfold rollout_count. rewrite List.filter_app, length_app. simpl.
  by destruct (is_rollout e).
Qed.

(** ** The invariant is kept by every elementary update *)

Lemma wf_fresh p g : wf (fresh p g).
Proof.
  assert (Hnode : forall n, node (fresh p g) n = new_node p None None
                            \/ node (fresh p g) n = new_node 0 None None).
  { intros [|n]; [by left | by right]. }
  split.
  - intros n q. by destruct (Hnode n) as [-> | ->].
  - intros n k c. destruct (Hnode n) as [-> | ->]; simpl; intros Hin;
      by apply elem_of_nil in Hin.
  - intros n. destruct (Hnode n) as [-> | ->]; apply NoDup_nil_2.
  - intros n. by destruct (Hnode n) as [-> | ->].
  - intros n. by destruct (Hnode n) as [-> | ->].
  - simpl. intros n Hn. lia.
Qed.

Lemma wf_set_rng w g : wf w -> wf (set_rng w g).
Proof. intros [H1 H2 H3 H4 H5 H6]. by split. Qed.

Lemma wf_log_rollout w n : wf w -> wf (log w (EvRollout n)).
Proof.
  intros [H1 H2 H3 H4 H5 H6]. split; try done.
  intros m. change (node (log w (EvRollout n)) m) with (node w m). simpl.
  rewrite backprop_count_snoc. simpl. rewrite H5. lia.
Qed.

Lemma wf_record w n r : wf w -> n < length (heap w) -> wf (record w n r).
Proof.
  intros [H1 H2 H3 H4 H5 H6] Hn. split.
  - intros m p. rewrite node_record by done.
    destruct (decide (m = n)) as [->|?]; simpl; auto.
  - intros m k c. rewrite length_record, !node_record by done.
    intros Hin.
    assert (Hin' : (k, c) ∈ children (node w m)).
    { by destruct (decide (m = n)) as [->|?]. }
    destruct (H2 _ _ _ Hin') as (Hlt & Hp & Ha). split; [done|].
    destruct (decide (c = n)) as [->|?]; simpl; auto.
  - intros m. rewrite node_record by done.
    destruct (decide (m = n)) as [->|?]; simpl; auto.
  - intros m. rewrite node_record by done.
    destruct (decide (m = n)) as [->|?]; simpl; auto.
    rewrite length_app. simpl. rewrite H4. lia.
  - intros m. rewrite node_record by done. unfold record. simpl.
    rewrite backprop_count_snoc. simpl.
    destruct (decide (m = n)) as [->|Hne]; simpl.
    + rewrite Nat.eqb_refl, H5. lia.
    + destruct (Nat.eqb_spec n m); [congruence|]. rewrite H5. lia.
  - intros m. rewrite length_record, node_record by done. intros Hm.
    destruct (decide (m = n)) as [->|?]; simpl; auto.
Qed.

Lemma wf_attach w n a : wf w -> n < length (heap w) -> wf (attach w n a).
Proof.
  intros [H1 H2 H3 H4 H5 H6] Hn.
  assert (Hfree : node w (length (heap w)) = new_node 0 None None).
  { by apply node_ge. }
  split.
  - intros m p. rewrite node_attach by done.
    destruct (decide (m = n)) as [->|?]; simpl; [by auto|].
    destruct (decide (m = length (heap w))) as [->|?]; simpl; [|by auto].
    by intros [= <-].
  - intros m k c. rewrite length_attach, !node_attach by done.
    intros Hin.
    assert (Hcase : (m = n /\ k = key a /\ c = length (heap w))
                    \/ (k, c) ∈ children (node w m)).
    { destruct (decide (m = n)) as [->|?]; simpl in Hin.
      - apply dict_set_elem in Hin as [[= -> ->]|?]; [by left | by right].
      - destruct (decide (m = length (heap w))) as [->|?]; simpl in Hin.
        + by apply elem_of_nil in Hin.
        + by right. }
    destruct Hcase as [(-> & -> & ->)|Hin'].
    + rewrite decide_False by lia. rewrite decide_True by done. simpl.
      split; [lia | done].
    + destruct (H2 _ _ _ Hin') as (Hlt & Hp & Ha). split; [lia|].
      destruct (decide (c = n)) as [->|?]; simpl; [done|].
      rewrite decide_False by lia. done.
  - intros m. rewrite node_attach by done.
    destruct (decide (m = n)) as [->|?]; simpl; [by apply dict_set_NoDup|].
    destruct (decide (m = length (heap w))) as [->|?]; simpl; [|by auto].
    apply NoDup_nil_2.
  - intros m. rewrite node_attach by done.
    destruct (decide (m = n)) as [->|?]; simpl; [by auto|].
    destruct (decide (m = length (heap w))) as [->|?]; simpl; by auto.
  - intros m. rewrite node_attach by done.
    change (trace (attach w n a)) with (trace w).
    destruct (decide (m = n)) as [->|?]; simpl; [by auto|].
    destruct (decide (m = length (heap w))) as [->|?]; simpl; [|by auto].
    rewrite <- H5, Hfree. done.
  - intros m. rewrite length_attach, node_attach by done. intros Hm.
    destruct (decide (m = n)) as [->|?]; simpl; [apply H6; lia|].
    destruct (decide (m = length (heap w))) as [->|?]; simpl; [by eexists|].
    apply H6. lia.
Qed.

(** ** Growth *)

Lemma grows_refl w : grows w w.
Proof. by split. Qed.

Lemma grows_trans w1 w2 w3 : grows w1 w2 -> grows w2 w3 -> grows w1 w3.
Proof.
  intros [L1 P1 Q1 A1 R1 V1] [L2 P2 Q2 A2 R2 V2]. split.
  - lia.
  - intros m Hm. rewrite P2 by lia. auto.
  - intros m Hm. rewrite Q2 by lia. auto.
  - intros m Hm. rewrite A2 by lia. auto.
  - intros m. etrans; [apply R1 | apply R2].
  - intros m. etrans; [apply V1 | apply V2].
Qed.

Lemma grows_set_rng w g : grows w (set_rng w g).
Proof. by split. Qed.

Lemma grows_log w e : grows w (log w e).
Proof. by split. Qed.

Lemma grows_record w n r : n < length (heap w) -> grows w (record w n r).
Proof.
  intros Hn. split.
  - by rewrite length_record.
  - intros m _. rewrite node_record by done. by destruct (decide (m = n)) as [->|?].
  - intros m _. rewrite node_record by done. by destruct (decide (m = n)) as [->|?].
  - intros m _. rewrite node_record by done. by destruct (decide (m = n)) as [->|?].
  - intros m. rewrite node_record by done.
    destruct (decide (m = n)) as [->|?]; simpl; [|done]. by apply prefix_app_r.
  - intros m. rewrite node_record by done.
    destruct (decide (m = n)) as [->|?]; simpl; lia.
Qed.

Lemma grows_attach w n a : n < length (heap w) -> grows w (attach w n a).
Proof.
  intros Hn.
  assert (Hold : forall m, m < length (heap w) ->
            node (attach w n a) m
            = if decide (m = n) then add_child (node w n) (key a) (length (heap w))
              else node w m).
  { intros m Hm. rewrite node_attach by done.
    destruct (decide (m = n)); [done|]. by rewrite decide_False by lia. }
  split.
  - rewrite length_attach. lia.
  - intros m Hm. rewrite Hold by done. by destruct (decide (m = n)) as [->|?].
  - intros m Hm. rewrite Hold by done. by destruct (decide (m = n)) as [->|?].
  - intros m Hm. rewrite Hold by done. by destruct (decide (m = n)) as [->|?].
  - intros m. destruct (decide (m < length (heap w))) as [Hm|Hm].
    + rewrite Hold by done. by destruct (decide (m = n)) as [->|?].
    + rewrite (node_ge w m) by lia. apply prefix_nil.
  - intros m. destruct (decide (m < length (heap w))) as [Hm|Hm].
    + rewrite Hold by done. by destruct (decide (m = n)) as [->|?].
    + rewrite (node_ge w m) by lia. simpl. lia.
Qed.

(** ** [backpropagate] *)

Lemma children_record w n r m :
  n < length (heap w) -> children (node (record w n r) m) = children (node w m).
Proof.
  intros Hn. rewrite node_record by done. by destruct (decide (m = n)) as [->|?].
Qed.

Lemma parent_record w n r m :
  n < length (heap w) -> parent (node (record w n r) m) = parent (node w m).
Proof.
  intros Hn. rewrite node_record by done. by destruct (decide (m = n)) as [->|?].
Qed.

Lemma backpropagate_Ok fuel n r w u w' :
  wf w -> n < length (heap w) ->
  backpropagate fuel n r w = Ok u w' -> stats_post 0 w w'.
Proof.
  revert n w. induction fuel as [|fuel IH]; intros n w Hwf Hn; simpl; [done|].
  rewrite parent_record by done.
  pose proof (wf_record w n r Hwf Hn) as Hwf1.
  pose proof (grows_record w n r Hn) as Hgr1.
  destruct (parent (node w n)) as [p|] eqn:Hpar.
  - pose proof (wf_parent _ Hwf _ _ Hpar) as Hp.
    intros Hrun. apply IH in Hrun; [|done|rewrite length_record; lia].
    destruct Hrun as [W L C G R T]. split.
    + done.
    + by rewrite L, length_record.
    + intros m. by rewrite C, children_record.
    + by eapply grows_trans.
    + rewrite R, node_record by done. by rewrite decide_False by lia.
    + rewrite T. unfold record. simpl. rewrite rollout_count_snoc. simpl. lia.
  - intros [= _ <-].
    assert (n = 0) as ->.
    { destruct (decide (n = 0)) as [|Hne]; [done|].
      destruct (wf_rooted _ Hwf n) as [p Hp]; [lia|congruence]. }
    split; try done.
    + apply length_record.
    + intros m. by apply children_record.
    + rewrite node_record by done. by rewrite decide_True.
    + unfold record. simpl. rewrite rollout_count_snoc. simpl. lia.
Qed.

Lemma backpropagate_no_raise fuel n r w e w' :
  backpropagate fuel n r w <> Raise e w'.
Proof.
  revert n w. induction fuel as [|fuel IH]; intros n w; simpl; [done|].
  destruct (parent (node (record w n r) n)); [apply IH | done].
Qed.

(** With fuel beyond the depth of the node, [backpropagate] returns. *)
Lemma backpropagate_returns fuel n r w :
  wf w -> n < length (heap w) -> n < fuel ->
  exists w', backpropagate fuel n r w = Ok tt w'.
Proof.
  revert n w. induction fuel as [|fuel IH]; intros n w Hwf Hn Hfuel; [lia|].
  simpl. rewrite parent_record by done.
  destruct (parent (node w n)) as [p|] eqn:Hpar; [|by eexists].
  pose proof (wf_parent _ Hwf _ _ Hpar) as Hp.
  apply IH; [by apply wf_record | rewrite length_record; lia | lia].
Qed.

(** ** [rollout] *)

Lemma rollout_Ok fuel n s w s' w' :
  wf w -> n < length (heap w) ->
  rollout fuel n s w = Ok s' w' -> stats_post 1 w w'.
Proof.
  intros Hwf Hn. unfold rollout.
  destruct (rollout_loop fuel s (rng w)) as [[s1 g1]|]; [|done].
  destruct (backpropagate _ _ _ _) as [u w2|e w2|] eqn:Hbp; [|done|done].
  intros [= _ <-].
  apply backpropagate_Ok in Hbp; [|by apply wf_log_rollout, wf_set_rng|done].
  destruct Hbp as [W L C G R T]. split.
  - done.
  - by rewrite L.
  - intros m. by rewrite C.
  - destruct G as [G1 G2 G3 G4 G5 G6]. by split.
  - by rewrite R.
  - rewrite T. simpl. rewrite rollout_count_snoc. simpl. lia.
Qed.

Lemma rollout_no_raise fuel n s w e w' : rollout fuel n s w <> Raise e w'.
Proof.
  unfold rollout.
  destruct (rollout_loop fuel s (rng w)) as [[s1 g1]|]; [|done].
  destruct (backpropagate _ _ _ _) as [u w2|e2 w2|] eqn:Hbp; [done| |done].
  by apply backpropagate_no_raise in Hbp.
Qed.

(** ** [expand] *)

Lemma choice_elem {A : Type} (l : list A) r a : choice l r = Some a -> a ∈ l.
Proof. unfold choice. intros Hl. apply list_elem_of_lookup. eauto. Qed.

Lemma choice_is_Some {A : Type} (l : list A) r : l <> [] -> is_Some (choice l r).
Proof.
  intros Hl. unfold choice. apply lookup_lt_is_Some.
  apply Nat.mod_upper_bound. by destruct l.
Qed.

Lemma choice_None {A : Type} (l : list A) r : choice l r = None -> l = [].
Proof.
  intros Hc. destruct l as [|x l]; [done|].
  destruct (choice_is_Some (x :: l) r) as [a Ha]; [done|congruence].
Qed.

Lemma expand_Ok fuel n s l w s' w' :
  wf w -> n < length (heap w) ->
  expand fuel n s l w = Ok s' w' ->
  exists a, a ∈ l /\ stats_post 1 (attach (set_rng w (draw (rng w)).2) n a) w'.
Proof.
  intros Hwf Hn. unfold expand.
  destruct (choice l (draw (rng w)).1) as [a|] eqn:Ha; [|done].
  intros Hro. exists a. split; [by eapply choice_elem|].
  eapply rollout_Ok; [| |exact Hro].
  - by apply wf_attach; [apply wf_set_rng|].
  - rewrite length_attach. simpl. lia.
Qed.

Lemma expand_Raise fuel n s l w e w' :
  expand fuel n s l w = Raise e w' -> l = [] /\ e = IndexError /\ w' = w.
Proof.
  unfold expand.
  destruct (choice l (draw (rng w)).1) as [a|] eqn:Ha.
  - intros Hro. by apply rollout_no_raise in Hro.
  - intros [= <- <-]. by apply choice_None in Ha.
Qed.

(** ** [step] *)

Lemma balanced_refl w : balanced w w.
Proof. split; lia. Qed.

Lemma keeps_children_refl w : keeps_children w w.
Proof. by intros m k c. Qed.

Lemma step_post_refl n w : wf w -> step_post n w w.
Proof.
  intros Hwf. split; [done | apply grows_refl | apply keeps_children_refl
                     | by intros m | apply balanced_refl].
Qed.

Lemma step_post_rng n c w g w' :
  n <= c -> step_post c (set_rng w g) w' -> step_post n w w'.
Proof.
  intros Hnc [W [G1 G2 G3 G4 G5 G6] K B [B1 B2 B3]]. split.
  - done.
  - by split.
  - done.
  - intros m Hm. apply (B m). lia.
  - by split.
Qed.

(** The tree after a child has been attached and its rollout has run. *)
Lemma attached_post w g n a w' :
  wf w -> n < length (heap w) ->
  stats_post 1 (attach (set_rng w g) n a) w' ->
  select_post w w'.
Proof.
  intros Hwf Hn [W L C G R T].
  assert (Hn' : n < length (heap (set_rng w g))) by done.
  split; [done| |].
  - eapply grows_trans; [|exact G].
    eapply grows_trans; [apply (grows_set_rng w g) | by apply grows_attach].
  - assert (Hroot : visits (node (attach (set_rng w g) n a) 0) = visits (node w 0)).
    { rewrite node_attach by done.
      destruct (decide (0 = n)) as [<-|?]; [done|].
      rewrite decide_False; [done|]. simpl. lia. }
    rewrite Hroot in R. change (trace (attach (set_rng w g) n a)) with (trace w) in T.
    split; lia.
Qed.

Lemma attached_children w g n a w' m :
  n < length (heap w) ->
  stats_post 1 (attach (set_rng w g) n a) w' ->
  children (node w' m)
  = if decide (m = n) then dict_set (key a) (length (heap w)) (children (node w n))
    else children (node w m).
Proof.
  intros Hn [W L C G R T].
  assert (Hn' : n < length (heap (set_rng w g))) by done.
  rewrite C, node_attach by done.
  destruct (decide (m = n)) as [->|?]; [done|].
  destruct (decide (m = length (heap (set_rng w g)))) as [->|?]; [|done].
  simpl. by rewrite (node_ge w (length (heap w))).
Qed.

Lemma attached_step_post w g n a w' :
  wf w -> n < length (heap w) ->
  dict_get (key a) (children (node w n)) = None ->
  stats_post 1 (attach (set_rng w g) n a) w' ->
  step_post n w w'.
Proof.
  intros Hwf Hn Hnew Hst.
  destruct (attached_post _ _ _ _ _ Hwf Hn Hst) as [W G B].
  split; try done.
  - intros m k c. rewrite (attached_children w g n a w' m) by done.
    destruct (decide (m = n)) as [->|?]; [|done].
    intros Hget. rewrite dict_get_set_ne; [done|]. congruence.
  - intros m Hm. rewrite (attached_children w g n a w' m) by done.
    by rewrite decide_False by lia.
Qed.

Lemma unexplored_of_elem nd actions a :
  a ∈ unexplored_of nd actions ->
  a ∈ actions /\ dict_get (key a) (children nd) = None.
Proof.
  unfold unexplored_of. rewrite list_elem_of_filter, dict_mem_false.
  intros [Hnew Hin]. by split.
Qed.

Lemma step_Ok fuel n s w s' w' :
  wf w -> n < length (heap w) ->
  step fuel n s w = Ok s' w' -> step_post n w w'.
Proof.
  revert n s w. induction fuel as [|fuel IH]; intros n s w Hwf Hn; simpl; [done|].
  destruct (get_actions s) as [|a0 actions] eqn:Hacts.
  { intros [= _ <-]. by apply step_post_refl. }
  destruct (unexplored_of (node w n) (a0 :: actions)) as [|u us] eqn:Hun.
  - destruct (choice (a0 :: actions) (draw (rng w)).1) as [a|]; [|done].
    destruct (dict_get (key a) (children (node w n))) as [c|] eqn:Hc.
    + intros Hrun. apply dict_get_elem in Hc.
      destruct (wf_child _ Hwf _ _ _ Hc) as (Hlt & _).
      apply IH in Hrun; [|by apply wf_set_rng|simpl; lia].
      eapply step_post_rng; [|exact Hrun]. lia.
    + intros [= _ <-]. eapply step_post_rng; [done|].
      by apply step_post_refl, wf_set_rng.
  - intros Hrun. apply expand_Ok in Hrun as (a & Ha & Hst); [|done..].
    rewrite <- Hun in Ha. apply unexplored_of_elem in Ha as [_ Hnew].
    by eapply attached_step_post.
Qed.

Lemma step_no_raise fuel n s w e w' : step fuel n s w <> Raise e w'.
Proof.
  revert n s w. induction fuel as [|fuel IH]; intros n s w; simpl; [done|].
  destruct (get_actions s) as [|a0 actions] eqn:Hacts; [done|].
  destruct (unexplored_of (node w n) (a0 :: actions)) as [|u us] eqn:Hun.
  - destruct (choice (a0 :: actions) (draw (rng w)).1) as [a|] eqn:Ha.
    + destruct (dict_get (key a) (children (node w n))); [apply IH | done].
    + by apply choice_None in Ha.
  - intros Hrun. by apply expand_Raise in Hrun as [? _].
Qed.

(** ** [select] *)

Lemma select_post_refl w : wf w -> select_post w w.
Proof. intros Hwf. split; [done | apply grows_refl | apply balanced_refl]. Qed.

Lemma py_max_elem {A : Type} (f : A -> Q) (l : list A) x :
  py_max f l = Some x -> x ∈ l.
Proof.
  destruct l as [|x0 l]; simpl; [done|]. intros [= <-].
  assert (Hgen : forall b, fold_left (fun best y => if Qltb (f best) (f y) then y else best) l b
                           ∈ b :: l).
  { induction l as [|y l IH]; intros b; simpl; [apply list_elem_of_here|].
    specialize (IH (if Qltb (f b) (f y) then y else b)).
    apply elem_of_cons in IH as [->|IH].
    - destruct (Qltb (f b) (f y)).
      + apply list_elem_of_further, list_elem_of_here.
      + apply list_elem_of_here.
    - by do 2 apply list_elem_of_further. }
  apply Hgen.
Qed.

Lemma select_Ok fuel n s w s' w' :
  wf w -> n < length (heap w) ->
  select fuel n s w = Ok s' w' -> select_post w w'.
Proof.
  revert n s w. induction fuel as [|fuel IH]; intros n s w Hwf Hn; simpl; [done|].
  destruct (Nat.ltb _ _).
  - intros Hrun. apply expand_Ok in Hrun as (a & Ha & Hst); [|done..].
    by eapply attached_post.
  - destruct (py_max _ _) as [[k c0]|] eqn:Hmax; [|done].
    destruct (dict_get k (children (node w n))) as [c|] eqn:Hc; [|done].
    intros Hrun. apply dict_get_elem in Hc.
    destruct (wf_child _ Hwf _ _ _ Hc) as (Hlt & _).
    apply IH in Hrun; [done|done|lia].
Qed.

Lemma select_Raise fuel n s w e w' : select fuel n s w = Raise e w' -> w' = w.
Proof.
  revert n s w. induction fuel as [|fuel IH]; intros n s w; simpl; [done|].
  destruct (Nat.ltb _ _).
  - intros Hrun. by apply expand_Raise in Hrun as (_ & _ & ->).
  - destruct (py_max _ _) as [[k c0]|] eqn:Hmax; [|by intros [= _ <-]].
    destruct (dict_get k (children (node w n))) as [c|] eqn:Hc; [|by intros [= _ <-]].
    apply IH.
Qed.

(** ** Every reachable tree satisfies the invariant *)

Lemma get_best_world n s w :
  (get_best n s w).2 = w \/ exists g, (get_best n s w).2 = set_rng w g.
Proof.
  unfold get_best. destruct (children (node w n)).
  - destruct (choice _ _); [right; by eexists | by left].
  - destruct (best_child _ _); by left.
Qed.

Lemma reachable_wf w : reachable w -> wf w.
Proof.
  induction 1 as [p g | w g _ IH | w fuel n s w' _ IH Hn Hrun
                 | w fuel n s l w' _ IH Hn Hrun | w fuel n s w' _ IH Hn Hrun
                 | w fuel n r w' _ IH Hn Hrun | w fuel n s w' _ IH Hn Hrun
                 | w n s _ IH Hn].
  - apply wf_fresh.
  - by apply wf_set_rng.
  - destruct (step fuel n s w) as [s1 w1|e w1|] eqn:Hst; simplify_eq/=.
    + by apply step_Ok in Hst as [].
    + by apply step_no_raise in Hst.
  - destruct (expand fuel n s l w) as [s1 w1|e w1|] eqn:Hst; simplify_eq/=.
    + apply expand_Ok in Hst as (a & _ & []); done.
    + by apply expand_Raise in Hst as (_ & _ & ->).
  - destruct (rollout fuel n s w) as [s1 w1|e w1|] eqn:Hst; simplify_eq/=.
    + by apply rollout_Ok in Hst as [].
    + by apply rollout_no_raise in Hst.
  - destruct (backpropagate fuel n r w) as [s1 w1|e w1|] eqn:Hst; simplify_eq/=.
    + by apply backpropagate_Ok in Hst as [].
    + by apply backpropagate_no_raise in Hst.
  - destruct (select fuel n s w) as [s1 w1|e w1|] eqn:Hst; simplify_eq/=.
    + by apply select_Ok in Hst as [].
    + by apply select_Raise in Hst as ->.
  - destruct (get_best_world n s w) as [->|[g ->]]; [done | by apply wf_set_rng].
Qed.

(** ** Visits, outcomes and calls of [backpropagate] *)

(** C2: in every tree reachable from a fresh root by calls of [step],
    [expand], [rollout], [backpropagate], [select] and [get_best], every
    node's [visits] equals the length of its [results], and both equal the
    number of calls of [backpropagate] on that node. *)
Theorem visits_results_backprops w n :
  reachable w ->
  visits (node w n) = length (results (node w n))
  /\ length (results (node w n)) = backprop_count n (trace w).
Proof.
  intros Hr. apply reachable_wf in Hr.
  pose proof (wf_visits _ Hr n) as Hv. pose proof (wf_count _ Hr n) as Hc.
  split; congruence.
Qed.

(** ** The root counts the rollouts *)

Lemma iterated_inv N w :
  iterated N w ->
  wf w /\ visits (node w 0) = N /\ rollout_count (trace w) = N
  /\ 0 < length (heap w).
Proof.
  induction 1 as [p g | N w g fuel s s' w' _ IH Hstep Hroll].
  - split; [apply wf_fresh|]. simpl. repeat split; lia.
  - destruct IH as (Hwf & Hv & Hc & Hlen).
    apply step_Ok in Hstep as [W G _ _ [B1 B2 B3]]; [|by apply wf_set_rng|done].
    simpl in *. change (node (set_rng w g) 0) with (node w 0) in B1.
    destruct G as [G1 _ _ _ _ _]. simpl in G1.
    split; [done|]. split; [lia|]. split; lia.
Qed.

(** C3: after [N] iterations of [step] on the root of a fresh tree, each
    of which ran a rollout to its end and returned, the root's [visits] is
    exactly [N], and the root has been reached by [backpropagate] exactly
    [N] times. *)
Theorem root_visits_iterations N w :
  iterated N w ->
  visits (node w 0) = N /\ backprop_count 0 (trace w) = N.
Proof.
  intros Hit. apply iterated_inv in Hit as (Hwf & Hv & _ & _).
  split; [done|]. by rewrite <- (wf_count _ Hwf 0).
Qed.

(** ** [step] on a node whose actions are all explored *)

Lemma unexplored_of_nil nd actions :
  (forall a, a ∈ actions -> dict_mem (key a) (children nd) = true) ->
  unexplored_of nd actions = [].
Proof.
  intros Hall. unfold unexplored_of.
  induction actions as [|a actions IH]; [done|].
  rewrite filter_cons. rewrite decide_False.
  - apply IH. intros b Hb. apply Hall. by apply list_elem_of_further.
  - rewrite (Hall a); [done | apply list_elem_of_here].
Qed.

Lemma dict_mem_true {V : Type} (k : Key) (d : list (Key * V)) :
  dict_mem k d = true -> exists v, dict_get k d = Some v.
Proof. unfold dict_mem. destruct (dict_get k d) as [v|]; [by exists v | done]. Qed.

(** C7: at a node of a reachable tree where the key of every legal action
    has a child, [step] adds no child to that node.  With no legal action it returns at once;
    otherwise it advances the state by a legal action picked by
    [random.choice] and continues with [step] on the child stored under
    that action's key. *)
Theorem step_explored_descends fuel n s w :
  reachable w -> n < length (heap w) ->
  (forall a, a ∈ get_actions s -> dict_mem (key a) (children (node w n)) = true) ->
  (get_actions s = [] -> step (S fuel) n s w = Ok s w)
  /\ (get_actions s <> [] ->
      exists a c,
        choice (get_actions s) (draw (rng w)).1 = Some a
        /\ a ∈ get_actions s
        /\ dict_get (key a) (children (node w n)) = Some c
        /\ step (S fuel) n s w
           = step fuel c (state_step s a) (set_rng w (draw (rng w)).2))
  /\ (forall w', world_after (step (S fuel) n s w) = Some w' ->
      children (node w' n) = children (node w n)).
Proof.
  intros Hwf Hn Hall. apply reachable_wf in Hwf.
  pose proof (unexplored_of_nil _ _ Hall) as Hun.
  assert (Hdesc : get_actions s <> [] ->
      exists a c,
        choice (get_actions s) (draw (rng w)).1 = Some a
        /\ a ∈ get_actions s
        /\ dict_get (key a) (children (node w n)) = Some c
        /\ step (S fuel) n s w
           = step fuel c (state_step s a) (set_rng w (draw (rng w)).2)).
  { intros Hne.
    destruct (choice_is_Some (get_actions s) (draw (rng w)).1 Hne) as [a Ha].
    pose proof (choice_elem _ _ _ Ha) as Hin.
    destruct (dict_mem_true _ _ (Hall a Hin)) as [c Hc].
    exists a, c. repeat split; try done.
    simpl. rewrite Hun. destruct (get_actions s) as [|a0 l]; [done|].
    by rewrite Ha, Hc. }
  split; [|split; [done|]].
  - intros Hnil. simpl. by rewrite Hnil.
  - intros w' Hafter.
    destruct (get_actions s) as [|a0 l] eqn:Hacts.
    { simpl in Hafter. rewrite Hacts in Hafter. by simplify_eq/=. }
    destruct Hdesc as (a & c & _ & _ & Hc & Heq); [done|].
    rewrite Heq in Hafter.
    destruct (step fuel c _ _) as [s1 w1|e w1|] eqn:Hst; simplify_eq/=.
    + apply dict_get_elem in Hc.
      destruct (wf_child _ Hwf _ _ _ Hc) as (Hlt & _).
      apply step_Ok in Hst as [_ _ _ B _]; [|by apply wf_set_rng|simpl; lia].
      apply (B n). lia.
    + by apply step_no_raise in Hst.
Qed.

(** ** [get_best] *)

Lemma Qltb_true x y : Qltb x y = true <-> (x < y)%Q.
Proof.
  unfold Qltb. rewrite negb_true_iff. split.
  - intros Hb. apply Qnot_le_lt. intros Hle.
    apply Qle_bool_iff in Hle. congruence.
  - intros Hlt. destruct (Qle_bool y x) eqn:Hb; [|done].
    apply Qle_bool_iff in Hb. by apply Qlt_not_le in Hlt.
Qed.

Lemma Qltb_false x y : Qltb x y = false <-> (y <= x)%Q.
Proof.
  unfold Qltb. rewrite negb_false_iff. apply Qle_bool_iff.
Qed.

Lemma best_visit_inv w seen acc c :
  best_inv w seen acc -> best_inv w (seen ++ [c]) (best_visit w acc c).
Proof.
  unfold best_visit. destruct acc as [[b|] [q|]]; simpl; try done.
  - intros (-> & Hb & Hvb & Hmax).
    destruct (Nat.ltb_spec 0 (visits (node w c))) as [Hv|Hv].
    + destruct (Qltb (mean (node w b)) (mean (node w c))) eqn:Hcmp; simpl.
      * apply Qltb_true in Hcmp. split; [done|].
        split; [apply elem_of_app; right; apply list_elem_of_here|].
        split; [done|]. intros c' Hc' Hv'.
        apply elem_of_app in Hc' as [Hc'|Hc'].
        -- eapply Qle_trans; [by apply Hmax|]. by apply Qlt_le_weak.
        -- apply list_elem_of_singleton in Hc' as ->. apply Qle_refl.
      * apply Qltb_false in Hcmp. split; [done|].
        split; [apply elem_of_app; by left|].
        split; [done|]. intros c' Hc' Hv'.
        apply elem_of_app in Hc' as [Hc'|Hc'].
        -- by apply Hmax.
        -- by apply list_elem_of_singleton in Hc' as ->.
    + simpl. split; [done|]. split; [apply elem_of_app; by left|].
      split; [done|]. intros c' Hc' Hv'.
      apply elem_of_app in Hc' as [Hc'|Hc'].
      * by apply Hmax.
      * apply list_elem_of_singleton in Hc' as ->. lia.
  - intros Hzero.
    destruct (Nat.ltb_spec 0 (visits (node w c))) as [Hv|Hv]; simpl.
    + split; [done|]. split; [apply elem_of_app; right; apply list_elem_of_here|].
      split; [done|]. intros c' Hc' Hv'.
      apply elem_of_app in Hc' as [Hc'|Hc'].
      * apply Hzero in Hc'. lia.
      * apply list_elem_of_singleton in Hc' as ->. apply Qle_refl.
    + intros c' Hc'. apply elem_of_app in Hc' as [Hc'|Hc'].
      * by apply Hzero.
      * apply list_elem_of_singleton in Hc' as ->. lia.
Qed.

Lemma best_fold_inv w cs :
  best_inv w cs (fold_left (best_visit w) cs (None, None)).
Proof.
  induction cs as [|c cs IH] using rev_ind.
  - simpl. intros c Hc. by apply elem_of_nil in Hc.
  - rewrite fold_left_app. simpl. by apply best_visit_inv.
Qed.

Lemma best_child_Some w cs c :
  best_child w cs = Some c ->
  c ∈ cs /\ 0 < visits (node w c)
  /\ forall c', c' ∈ cs -> 0 < visits (node w c') ->
                (mean (node w c') <= mean (node w c))%Q.
Proof.
  unfold best_child. pose proof (best_fold_inv w cs) as Hinv.
  destruct (fold_left (best_visit w) cs (None, None)) as [[b|] [q|]];
    simpl in *; try done.
  intros [= ->]. by destruct Hinv as (_ & ? & ? & ?).
Qed.

Lemma best_child_None w cs :
  best_child w cs = None -> forall c, c ∈ cs -> visits (node w c) = 0.
Proof.
  unfold best_child. pose proof (best_fold_inv w cs) as Hinv.
  by destruct (fold_left (best_visit w) cs (None, None)) as [[b|] [q|]].
Qed.

(** The loop reads nothing but the visits and results of the children. *)
Lemma best_child_ext w w' cs :
  (forall c, c ∈ cs ->
     visits (node w' c) = visits (node w c)
     /\ results (node w' c) = results (node w c)) ->
  best_child w' cs = best_child w cs.
Proof.
  unfold best_child. generalize (@None nat, @None Q).
  induction cs as [|c cs IH]; intros acc Hsame; [done|].
  simpl. destruct (Hsame c) as [Hv Hr]; [apply list_elem_of_here|].
  assert (Hstep : best_visit w' acc c = best_visit w acc c).
  { unfold best_visit, mean. by rewrite Hv, Hr. }
  rewrite Hstep. apply IH. intros c' Hc'. apply Hsame.
  by apply list_elem_of_further.
Qed.


(** C9: when the node has children, the result of [get_best] is fixed by
    the dictionary and by the visits, results and actions of the children
    in it: neither the state nor the generator is read, and the generator is
    left as it was. *)
Theorem get_best_state_independent n s1 s2 w1 w2 :
  children (node w1 n) <> [] ->
  children (node w2 n) = children (node w1 n) ->
  (forall c, c ∈ dict_values (children (node w1 n)) ->
     visits (node w2 c) = visits (node w1 c)
     /\ results (node w2 c) = results (node w1 c)
     /\ action (node w2 c) = action (node w1 c)) ->
  (get_best n s1 w1).1 = (get_best n s2 w2).1
  /\ (get_best n s1 w1).2 = w1
  /\ (get_best n s2 w2).2 = w2.
Proof.
  intros Hne Hch Hsame. unfold get_best. rewrite Hch.
  destruct (children (node w1 n)) as [|kc d] eqn:Hch1; [done|].
  rewrite (best_child_ext w1 w2) by (intros c Hc; by destruct (Hsame c Hc) as (? & ? & ?)).
  destruct (best_child w1 (dict_values (kc :: d))) as [c|] eqn:Hbest; [|done].
  apply best_child_Some in Hbest as (Hc & _).
  destruct (Hsame c Hc) as (_ & _ & Ha). by rewrite Ha.
Qed.

(** ** [select] *)



Lemma py_max_None {A : Type} (f : A -> Q) (l : list A) :
  py_max f l = None <-> l = [].
Proof. by destruct l. Qed.


(** Below the expansion test, [select] moves on to the entry that [max]
    returns. *)
Lemma select_descends fuel n s w :
  wf w ->
  length (get_actions s) <= length (children (node w n)) ->
  children (node w n) <> [] ->
  exists k c,
    py_max (fun item => ucb (node w n) (node w item.2)) (children (node w n))
    = Some (k, c)
    /\ (k, c) ∈ children (node w n)
    /\ select (S fuel) n s w = select fuel c (apply_action s k) w.
Proof.
  intros Hwf Hlen Hne. simpl.
  destruct (Nat.ltb_spec (length (children (node w n))) (length (get_actions s)))
    as [Hlt|_]; [lia|].
  destruct (py_max _ _) as [[k c]|] eqn:Hmax.
  - exists k, c. pose proof (py_max_elem _ _ _ Hmax) as Hin.
    rewrite (dict_get_NoDup k c); [done | apply (wf_keys _ Hwf) | done].
  - by apply py_max_None in Hmax.
Qed.


(** C10: [select] on a node without children, in a state without legal
    actions, raises the [ValueError] of [max] on an empty dictionary and
    changes nothing; below the expansion test this is the only way it
    raises at that node: with a child it moves on to one. *)
Theorem select_empty_raises fuel n s w :
  (children (node w n) = [] -> get_actions s = [] ->
   select (S fuel) n s w = Raise ValueError w)
  /\ (reachable w ->
      length (get_actions s) <= length (children (node w n)) ->
      children (node w n) <> [] ->
      exists k c,
        (k, c) ∈ children (node w n)
        /\ select (S fuel) n s w = select fuel c (apply_action s k) w).
Proof.
  split.
  - intros Hch Hacts. simpl. by rewrite Hch, Hacts.
  - intros Hwf Hlen Hne. apply reachable_wf in Hwf.
    destruct (select_descends fuel n s w Hwf Hlen Hne) as (k & c & _ & Hin & Heq).
    by exists k, c.
Qed.

(** ** [choose_card] *)


(** ** Two iterations on a root with two actions *)

Lemma unexplored_of_all nd l : children nd = [] -> unexplored_of nd l = l.
Proof.
  intros Hch. unfold unexplored_of, dict_mem. rewrite Hch. simpl.
  induction l as [|a l IH]; [done|].
  rewrite filter_cons. simpl. by rewrite IH.
Qed.

Lemma unexplored_of_other nd a b c l :
  children nd = [(key a, c)] -> key a <> key b ->
  l = [a; b] \/ l = [b; a] ->
  unexplored_of nd l = [b].
Proof.
  intros Hch Hne Hl. unfold unexplored_of, dict_mem. rewrite Hch.
  assert (Ha : dict_get (key a) [(key a, c)] = Some c).
  { simpl. by rewrite decide_True. }
  assert (Hb : dict_get (key b) [(key a, c)] = None).
  { simpl. rewrite decide_False; [done|congruence]. }
  destruct Hl as [-> | ->]; rewrite !filter_cons, filter_nil, Ha, Hb; done.
Qed.

Lemma choice_singleton {A : Type} (a : A) r : choice [a] r = Some a.
Proof. unfold choice. cbn [length]. by rewrite Nat.mod_1_r. Qed.

(** The first iteration on a fresh root attaches node 1 and visits both. *)
Lemma step_fresh_root fuel s p g s' w1 :
  get_actions s <> [] ->
  step fuel 0 s (fresh p g) = Ok s' w1 ->
  exists a r g1,
    a ∈ get_actions s
    /\ w1 = mkWorld [mkNode p None None [(key a, 1)] [r] 1;
                     mkNode p (Some 0) (Some a) [] [r] 1]
                    g1 [EvRollout 1; EvBackprop 1 r; EvBackprop 0 r].
Proof.
  intros Hne. destruct fuel as [|fuel]; [done|]. simpl.
  destruct (get_actions s) as [|a0 l] eqn:Hacts; [done|].
  rewrite unexplored_of_all by done. unfold expand.
  destruct (choice (a0 :: l) _) as [a|] eqn:Ha; [|done].
  unfold rollout.
  destruct (rollout_loop _ _ _) as [[s1 g1]|]; [|done].
  destruct fuel as [|[|fuel]]; [done..|].
  cbn. intros [= _ <-].
  exists a, (state_score s1), g1. split; [by eapply choice_elem | done].
Qed.

(** The second iteration, when one action is left, attaches node 2. *)
Lemma step_second_root fuel s p a b r g tr s' w2 :
  unexplored_of (mkNode p None None [(key a, 1)] [r] 1) (get_actions s) = [b] ->
  step fuel 0 s (mkWorld [mkNode p None None [(key a, 1)] [r] 1;
                          mkNode p (Some 0) (Some a) [] [r] 1] g tr)
  = Ok s' w2 ->
  exists r2 g2 tr2,
    w2 = mkWorld [mkNode p None None [(key a, 1); (key b, 2)] [r; r2] 2;
                  mkNode p (Some 0) (Some a) [] [r] 1;
                  mkNode p (Some 0) (Some b) [] [r2] 1] g2 tr2.
Proof.
  intros Hun. destruct fuel as [|fuel]; [done|]. simpl.
  destruct (get_actions s) as [|a0 l] eqn:Hacts; [done|].
  change (node _ 0) with (mkNode p None None [(key a, 1)] [r] 1).
  rewrite Hun. unfold expand. rewrite choice_singleton.
  assert (Hkey : dict_get (key b) [(key a, 1)] = None).
  { assert (Hb : b ∈ unexplored_of (mkNode p None None [(key a, 1)] [r] 1) (a0 :: l)).
    { rewrite Hun. apply list_elem_of_here. }
    by apply unexplored_of_elem in Hb as [_ Hb]. }
  unfold rollout.
  destruct (rollout_loop _ _ _) as [[s1 g1]|]; [|done].
  destruct fuel as [|[|fuel]]; [done..|].
  cbv -[dict_set]. rewrite (dict_set_fresh _ _ _ Hkey).
  intros [= _ <-]. by eexists _, _, _.
Qed.

(** C8: on a fresh tree whose root state offers the two actions [X] and
    [Y], with different keys, two iterations of [step] that return leave
    the root with exactly two children, one under the key of [X] and one
    under the key of [Y], each visited once. *)
Theorem two_iterations_two_children p g g' fuel1 fuel2 s1 s2 X Y s1' w1 s2' w2 :
  key X <> key Y ->
  get_actions s1 ≡ₚ [X; Y] ->
  get_actions s2 ≡ₚ [X; Y] ->
  step fuel1 0 s1 (fresh p g) = Ok s1' w1 ->
  step fuel2 0 s2 (set_rng w1 g') = Ok s2' w2 ->
  exists cx cy,
    dict_get (key X) (children (node w2 0)) = Some cx
    /\ dict_get (key Y) (children (node w2 0)) = Some cy
    /\ length (children (node w2 0)) = 2
    /\ action (node w2 cx) = Some X /\ visits (node w2 cx) = 1
    /\ action (node w2 cy) = Some Y /\ visits (node w2 cy) = 1.
Proof.
  intros Hkey Hp1 Hp2 Hst1 Hst2.
  assert (H1 : get_actions s1 = [X; Y] \/ get_actions s1 = [Y; X]).
  { symmetry in Hp1. by apply Permutation_length_2_inv in Hp1. }
  assert (H2 : get_actions s2 = [X; Y] \/ get_actions s2 = [Y; X]).
  { symmetry in Hp2. by apply Permutation_length_2_inv in Hp2. }
  apply step_fresh_root in Hst1 as (a & r & g1 & Ha & ->);
    [|by destruct H1 as [-> | ->]].
  assert (HaXY : a = X \/ a = Y).
  { destruct H1 as [H1|H1]; rewrite H1 in Ha;
      repeat (apply elem_of_cons in Ha as [Ha|Ha]; [by auto|]);
      by apply elem_of_nil in Ha. }
  destruct HaXY as [-> | ->].
  - apply (step_second_root _ _ _ X Y) in Hst2 as (r2 & g2 & tr2 & ->).
    + exists 1, 2. cbn. rewrite decide_True by done.
      rewrite decide_False by congruence. by rewrite decide_True.
    + by eapply unexplored_of_other.
  - apply (step_second_root _ _ _ Y X) in Hst2 as (r2 & g2 & tr2 & ->).
    + exists 2, 1. cbn. rewrite decide_False by done.
      rewrite !decide_True by done. done.
    + eapply unexplored_of_other; [done|congruence|]. destruct H2; auto.
Qed.

(** ** [step] only appends *)

Lemma step_append_only fuel n s w s' w' :
  wf w -> n < length (heap w) ->
  step fuel n s w = Ok s' w' ->
  grows w w' /\ keeps_children w w'.
Proof. intros Hwf Hn Hst. by apply step_Ok in Hst as [_ ? ? _ _]. Qed.

(** ** With enough fuel the operations return *)

Section Termination.
(** A battle in which every legal action brings the end nearer. *)
Variable mu : State -> nat.
Hypothesis mu_step :
  forall s a, a ∈ get_actions s -> mu (state_step s a) < mu s.

Lemma rollout_loop_returns fuel s g :
  mu s < fuel -> is_Some (rollout_loop fuel s g).
Proof using mu_step.
  revert s g. induction fuel as [|fuel IH]; intros s g Hfuel; [lia|].
  simpl. destruct (ended s); [by eexists|].
  destruct (choice (get_actions s) (draw g).1) as [a|] eqn:Ha; [|by eexists].
  apply IH. apply choice_elem, mu_step in Ha. lia.
Qed.

Lemma rollout_returns fuel n s w :
  wf w -> n < length (heap w) -> mu s < fuel -> n < fuel ->
  exists s' w', rollout fuel n s w = Ok s' w'.
Proof using mu_step.
  intros Hwf Hn Hmu Hfuel. unfold rollout.
  destruct (rollout_loop_returns fuel s (rng w) Hmu) as [[s1 g1] ->].
  destruct (backpropagate_returns fuel n (state_score s1)
              (log (set_rng w g1) (EvRollout n))) as [w2 ->]; [|done|done|].
  - by apply wf_log_rollout, wf_set_rng.
  - by eexists _, _.
Qed.

Lemma expand_returns fuel n s l w :
  wf w -> n < length (heap w) -> l <> [] ->
  (forall a, a ∈ l -> a ∈ get_actions s) ->
  mu s <= fuel -> length (heap w) < fuel ->
  exists s' w', expand fuel n s l w = Ok s' w'.
Proof using mu_step.
  intros Hwf Hn Hl Hsub Hmu Hfuel. unfold expand.
  destruct (choice_is_Some l (draw (rng w)).1 Hl) as [a Ha]. rewrite Ha.
  apply choice_elem, Hsub, mu_step in Ha.
  apply rollout_returns; [|rewrite length_attach; simpl; lia|lia|lia].
  by apply wf_attach; [apply wf_set_rng|].
Qed.

Lemma step_returns fuel n s w :
  wf w -> n < length (heap w) -> mu s + length (heap w) < fuel ->
  exists s' w', step fuel n s w = Ok s' w'.
Proof using mu_step.
  revert n s w. induction fuel as [|fuel IH]; intros n s w Hwf Hn Hfuel; [lia|].
  simpl. destruct (get_actions s) as [|a0 l] eqn:Hacts; [by eexists _, _|].
  destruct (unexplored_of (node w n) (a0 :: l)) as [|u us] eqn:Hun.
  - destruct (choice_is_Some (a0 :: l) (draw (rng w)).1) as [a Ha]; [done|].
    rewrite Ha. apply choice_elem in Ha.
    destruct (dict_get (key a) (children (node w n))) as [c|] eqn:Hc;
      [|by eexists _, _].
    apply dict_get_elem in Hc. destruct (wf_child _ Hwf _ _ _ Hc) as (Hlt & _).
    apply IH; [by apply wf_set_rng | simpl; lia |].
    rewrite <- Hacts in Ha. apply mu_step in Ha. simpl. lia.
  - assert (Hpos : 0 < mu s).
    { pose proof (mu_step s a0) as Hlt. rewrite Hacts in Hlt.
      specialize (Hlt (list_elem_of_here _ _)). lia. }
    apply expand_returns; [done|done|done| |lia|lia].
    intros a Ha. rewrite <- Hun in Ha. apply unexplored_of_elem in Ha as [Ha _].
    by rewrite Hacts.
Qed.

End Termination.

(** * Further properties of the search *)

(** ** [step]: no exception, nothing removed, one node per rollout *)

(** X1: [step] never raises: [random.choice] is only reached on a list that
    has an element. *)
Theorem step_never_raises fuel n s w e w' : step fuel n s w <> Raise e w'.
Proof. apply step_no_raise. Qed.

(** X2: On a reachable tree a returning [step] only appends: old nodes keep
    parameter, parent and action, their results are extended at the end,
    and every dictionary entry still leads to the same child. *)
Theorem step_only_appends fuel n s w s' w' :
  reachable w -> n < length (heap w) ->
  step fuel n s w = Ok s' w' ->
  grows w w' /\ keeps_children w w'.
Proof.
  intros Hr Hn Hst. apply reachable_wf in Hr.
  by apply step_Ok in Hst as [_ ? ? _ _].
Qed.

Lemma step_size fuel n s w s' w' :
  wf w -> n < length (heap w) ->
  step fuel n s w = Ok s' w' ->
  length (heap w') + rollout_count (trace w)
  = length (heap w) + rollout_count (trace w').
Proof.
  revert n s w. induction fuel as [|fuel IH]; intros n s w Hwf Hn; simpl; [done|].
  destruct (get_actions s) as [|a0 actions] eqn:Hacts.
  { by intros [= _ <-]. }
  destruct (unexplored_of (node w n) (a0 :: actions)) as [|u us] eqn:Hun.
  - destruct (choice (a0 :: actions) (draw (rng w)).1) as [a|]; [|done].
    destruct (dict_get (key a) (children (node w n))) as [c|] eqn:Hc.
    + intros Hrun. apply dict_get_elem in Hc.
      destruct (wf_child _ Hwf _ _ _ Hc) as (Hlt & _).
      apply IH in Hrun; [done|by apply wf_set_rng|simpl; lia].
    + by intros [= _ <-].
  - intros Hrun. apply expand_Ok in Hrun as (a & _ & [_ L _ _ _ T]); [|done..].
    rewrite L, T, length_attach. simpl. lia.
Qed.

(** X3: A returning [step] on a reachable tree runs at most one rollout, adds
    exactly one node per rollout, and visits the root once per rollout. *)
Theorem step_one_node_per_rollout fuel n s w s' w' :
  reachable w -> n < length (heap w) ->
  step fuel n s w = Ok s' w' ->
  exists k, k <= 1
    /\ rollout_count (trace w') = k + rollout_count (trace w)
    /\ length (heap w') = k + length (heap w)
    /\ visits (node w' 0) = k + visits (node w 0).
Proof.
  intros Hr Hn Hst. apply reachable_wf in Hr.
  pose proof (step_size _ _ _ _ _ _ Hr Hn Hst) as Hsize.
  apply step_Ok in Hst as [_ _ _ _ [B1 B2 B3]]; [|done..].
  exists (rollout_count (trace w') - rollout_count (trace w)).
  repeat split; lia.
Qed.

(** ** [backpropagate]: the path to the root *)

Lemma ancestors_le fuel w n m : wf w -> m ∈ ancestors fuel w n -> m <= n.
Proof.
  intros Hwf. revert n. induction fuel as [|fuel IH]; intros n; simpl.
  - intros Hm. by apply elem_of_nil in Hm.
  - intros Hm. apply elem_of_cons in Hm as [->|Hm]; [done|].
    destruct (parent (node w n)) as [p|] eqn:Hp.
    + apply IH in Hm. apply (wf_parent _ Hwf) in Hp. lia.
    + by apply elem_of_nil in Hm.
Qed.

Lemma ancestors_fuel fuel w n :
  wf w -> n < fuel -> ancestors fuel w n = ancestors (S n) w n.
Proof.
  intros Hwf. revert fuel.
  induction n as [n IH] using lt_wf_ind. intros fuel Hfuel.
  destruct fuel as [|fuel]; [lia|]. simpl.
  destruct (parent (node w n)) as [p|] eqn:Hp; [|done].
  pose proof (wf_parent _ Hwf _ _ Hp) as Hlt.
  f_equal. rewrite (IH p Hlt fuel) by lia. by rewrite (IH p Hlt n).
Qed.

Lemma ancestors_record fuel w n r m :
  n < length (heap w) ->
  ancestors fuel (record w n r) m = ancestors fuel w m.
Proof.
  intros Hn. revert m. induction fuel as [|fuel IH]; intros m; simpl; [done|].
  rewrite parent_record by done.
  destruct (parent (node w m)); [by rewrite IH | done].
Qed.

Lemma backpropagate_path fuel n r w u w' :
  wf w -> n < length (heap w) ->
  backpropagate fuel n r w = Ok u w' ->
  (forall m, node w' m
             = if decide (m ∈ ancestors (S n) w n)
               then record_result (node w m) r else node w m)
  /\ rng w' = rng w
  /\ trace w' = trace w ++ ((fun m => EvBackprop m r) <$> ancestors (S n) w n).
Proof.
  revert n w. induction fuel as [|fuel IH]; intros n w Hwf Hn; [done|].
  cbn [backpropagate ancestors]. rewrite parent_record by done.
  destruct (parent (node w n)) as [p|] eqn:Hpar.
  - pose proof (wf_parent _ Hwf _ _ Hpar) as Hp.
    intros Hrun.
    apply IH in Hrun as (Hnode & Hrng & Htr);
      [|by apply wf_record|rewrite length_record; lia].
    rewrite ancestors_record in Hnode, Htr by done.
    rewrite (ancestors_fuel n w p) by done.
    split; [|split].
    + intros m. rewrite Hnode, node_record by done.
      destruct (decide (m = n)) as [->|Hne].
      * rewrite decide_False.
        -- rewrite decide_True; [done | apply list_elem_of_here].
        -- intros Hin. apply (ancestors_le _ _ _ _ Hwf) in Hin. lia.
      * destruct (decide (m ∈ ancestors (S p) w p)) as [Hin|Hnin].
        -- rewrite decide_True; [done | by apply list_elem_of_further].
        -- rewrite decide_False; [done|].
           intros Hin. by apply elem_of_cons in Hin as [?|?].
    + by rewrite Hrng.
    + rewrite Htr. unfold record. cbn [trace log set_node].
      rewrite fmap_cons. by rewrite <- app_assoc.
  - intros [= _ <-]. split; [|split].
    + intros m. rewrite node_record by done.
      destruct (decide (m = n)) as [->|Hne].
      * rewrite decide_True; [done | apply list_elem_of_here].
      * rewrite decide_False; [done|].
        intros Hin. apply list_elem_of_singleton in Hin. done.
    + done.
    + done.
Qed.

(** X4: When [backpropagate] returns on a reachable tree, exactly the node it
    was called on and its ancestors have one more visit and the result
    appended; every other node is as before, the generator is untouched, and
    the calls went up the path in order. *)
Theorem backpropagate_along_path fuel n r w u w' :
  reachable w -> n < length (heap w) ->
  backpropagate fuel n r w = Ok u w' ->
  (forall m, m ∈ ancestors (S n) w n ->
     results (node w' m) = results (node w m) ++ [r]
     /\ visits (node w' m) = S (visits (node w m)))
  /\ (forall m, m ∉ ancestors (S n) w n -> node w' m = node w m)
  /\ rng w' = rng w
  /\ trace w' = trace w ++ ((fun m => EvBackprop m r) <$> ancestors (S n) w n).
Proof.
  intros Hr Hn Hrun. apply reachable_wf in Hr.
  destruct (backpropagate_path _ _ _ _ _ _ Hr Hn Hrun) as (Hnode & Hrng & Htr).
  split; [|split; [|done]].
  - intros m Hm. rewrite Hnode. by rewrite decide_True.
  - intros m Hm. rewrite Hnode. by rewrite decide_False.
Qed.

(** The path of a node of a reachable tree starts at the node, climbs
    through strictly smaller indices and ends at the root. *)
Lemma ancestors_root w n :
  wf w -> n < length (heap w) -> 0 ∈ ancestors (S n) w n.
Proof.
  intros Hwf. induction n as [n IH] using lt_wf_ind. intros Hn.
  cbn [ancestors]. destruct (decide (n = 0)) as [->|Hne]; [apply list_elem_of_here|].
  destruct (wf_rooted _ Hwf n) as [p Hp]; [lia|]. rewrite Hp.
  pose proof (wf_parent _ Hwf _ _ Hp) as Hlt.
  apply list_elem_of_further. rewrite (ancestors_fuel n w p) by done.
  apply IH; lia.
Qed.

(** ** [rollout]: plays to the end and records the final score *)

Lemma ancestors_ext fuel w1 w2 n :
  (forall m, parent (node w1 m) = parent (node w2 m)) ->
  ancestors fuel w1 n = ancestors fuel w2 n.
Proof.
  intros Hsame. revert n. induction fuel as [|fuel IH]; intros n; simpl; [done|].
  rewrite Hsame. destruct (parent (node w2 n)); [by rewrite IH | done].
Qed.

Lemma rollout_loop_terminal fuel s g s' g' :
  rollout_loop fuel s g = Some (s', g') ->
  ended s' = true \/ get_actions s' = [].
Proof.
  revert s g. induction fuel as [|fuel IH]; intros s g; simpl; [done|].
  destruct (ended s) eqn:Hend.
  - intros [= <- _]. by left.
  - destruct (choice (get_actions s) (draw g).1) as [a|] eqn:Ha.
    + apply IH.
    + intros [= <- _]. right. by eapply choice_None.
Qed.

Lemma rollout_loop_stay fuel s g :
  ended s = true \/ get_actions s = [] ->
  rollout_loop (S fuel) s g = Some (s, g).
Proof.
  intros [Hend|Hacts]; simpl.
  - by rewrite Hend.
  - rewrite Hacts. by destruct (ended s).
Qed.

Lemma rollout_nodes fuel n s w s' w' :
  wf w -> n < length (heap w) ->
  rollout fuel n s w = Ok s' w' ->
  (ended s' = true \/ get_actions s' = [])
  /\ (forall m, node w' m
                = if decide (m ∈ ancestors (S n) w n)
                  then record_result (node w m) (state_score s') else node w m)
  /\ length (heap w') = length (heap w).
Proof.
  intros Hwf Hn. unfold rollout.
  destruct (rollout_loop fuel s (rng w)) as [[s1 g1]|] eqn:Hloop; [|done].
  destruct (backpropagate _ _ _ _) as [u w2|e w2|] eqn:Hbp; [|done|done].
  intros [= <- <-].
  split; [by eapply rollout_loop_terminal|].
  assert (Hwf1 : wf (log (set_rng w g1) (EvRollout n))).
  { by apply wf_log_rollout, wf_set_rng. }
  pose proof (backpropagate_Ok _ _ _ _ _ _ Hwf1 Hn Hbp) as [_ L _ _ _ _].
  apply backpropagate_path in Hbp as (Hnode & _ & _); [|done..].
  split; [|done]. intros m. rewrite Hnode.
  by rewrite (ancestors_ext _ _ w).
Qed.

(** X5: A returning [rollout] on a reachable tree has played the state to a
    terminal one (ended, or without legal actions) and has appended the
    score of that final state to the node it started from and to the root;
    it adds no node and changes no dictionary. *)
Theorem rollout_records_final_score fuel n s w s' w' :
  reachable w -> n < length (heap w) ->
  rollout fuel n s w = Ok s' w' ->
  (ended s' = true \/ get_actions s' = [])
  /\ results (node w' n) = results (node w n) ++ [state_score s']
  /\ results (node w' 0) = results (node w 0) ++ [state_score s']
  /\ length (heap w') = length (heap w)
  /\ (forall m, children (node w' m) = children (node w m)).
Proof.
  intros Hr Hn Hrun. apply reachable_wf in Hr.
  destruct (rollout_nodes _ _ _ _ _ _ Hr Hn Hrun) as (Hend & Hnode & Hlen).
  split; [done|]. split; [|split; [|split; [done|]]].
  - rewrite Hnode. rewrite decide_True; [done | apply list_elem_of_here].
  - rewrite Hnode. rewrite decide_True; [done | by apply ancestors_root].
  - intros m. rewrite Hnode. by destruct (decide _).
Qed.

(** X6: [rollout] on a state that is already terminal, with fuel beyond the
    node's index: the state is not advanced, the generator is not read, and
    the state's score is recorded at the node. *)
Theorem rollout_terminal_state fuel n s w :
  reachable w -> n < length (heap w) -> n < fuel ->
  ended s = true \/ get_actions s = [] ->
  exists w',
    rollout fuel n s w = Ok s w'
    /\ rng w' = rng w
    /\ results (node w' n) = results (node w n) ++ [state_score s]
    /\ visits (node w' n) = S (visits (node w n)).
Proof.
  intros Hr Hn Hfuel Hterm. apply reachable_wf in Hr.
  destruct fuel as [|fuel]; [lia|].
  assert (Hwf1 : wf (log (set_rng w (rng w)) (EvRollout n))).
  { by apply wf_log_rollout, wf_set_rng. }
  destruct (backpropagate_returns (S fuel) n (state_score s) _ Hwf1 Hn Hfuel)
    as [w' Hbp].
  assert (Hro : rollout (S fuel) n s w = Ok s w').
  { unfold rollout. rewrite (rollout_loop_stay fuel s (rng w) Hterm).
    cbv zeta. by rewrite Hbp. }
  exists w'. split; [done|].
  apply backpropagate_path in Hbp as (Hnode & Hrng & _); [|done..].
  split; [done|]. rewrite Hnode.
  rewrite decide_True by apply list_elem_of_here. done.
Qed.

(** ** [expand]: one new node under the key of the chosen action *)

Lemma dict_set_length {V : Type} (k : Key) (v : V) (d : list (Key * V)) :
  length (dict_set k v d)
  = if dict_mem k d then length d else S (length d).
Proof.
  unfold dict_mem. induction d as [|[k0 v0] d IH]; simpl; [done|].
  destruct (decide (k = k0)) as [->|Hne]; simpl; [done|].
  rewrite IH. by destruct (dict_get k d).
Qed.

Lemma expand_nodes fuel n s l w s' w' :
  wf w -> n < length (heap w) ->
  expand fuel n s l w = Ok s' w' ->
  exists a,
    choice l (draw (rng w)).1 = Some a
    /\ length (heap w') = S (length (heap w))
    /\ node w' (length (heap w))
       = mkNode (param (node w n)) (Some n) (Some a) [] [state_score s'] 1
    /\ children (node w' n) = dict_set (key a) (length (heap w)) (children (node w n))
    /\ (forall m, m <> n -> m < length (heap w) ->
          children (node w' m) = children (node w m)).
Proof.
  intros Hwf Hn. unfold expand.
  destruct (choice l (draw (rng w)).1) as [a|] eqn:Ha; [|done].
  intros Hro. exists a. split; [done|].
  set (w1 := attach (set_rng w (draw (rng w)).2) n a) in *.
  assert (Hn1 : n < length (heap (set_rng w (draw (rng w)).2))) by done.
  assert (Hwf1 : wf w1) by (by apply wf_attach; [apply wf_set_rng|]).
  assert (Hc : length (heap w) < length (heap w1)).
  { unfold w1. rewrite length_attach. simpl. lia. }
  destruct (rollout_nodes _ _ _ _ _ _ Hwf1 Hc Hro) as (_ & Hnode & Hlen).
  assert (Hnew : node w1 (length (heap w))
                 = new_node (param (node w n)) (Some n) (Some a)).
  { unfold w1. rewrite node_attach by done.
    rewrite decide_False by (simpl; lia). by rewrite decide_True. }
  split; [by rewrite Hlen; unfold w1; rewrite length_attach|].
  split; [|split].
  - rewrite Hnode. rewrite decide_True by apply list_elem_of_here.
    by rewrite Hnew.
  - rewrite Hnode.
    assert (Hch : children (node w1 n)
                  = dict_set (key a) (length (heap w)) (children (node w n))).
    { unfold w1. rewrite node_attach by done. by rewrite decide_True. }
    by destruct (decide _).
  - intros m Hne Hm. rewrite Hnode.
    assert (Hch : children (node w1 m) = children (node w m)).
    { unfold w1. rewrite node_attach by done.
      rewrite decide_False by done. rewrite decide_False; [done|]. simpl. lia. }
    by destruct (decide _).
Qed.

(** X7: A returning [expand] on a reachable tree appends exactly one node: a
    childless node with the parent's parameter, the node as parent, the
    action that [random.choice] picked among the candidates, and one visit
    holding the score of the rollout. *)
Theorem expand_new_node fuel n s l w s' w' :
  reachable w -> n < length (heap w) ->
  expand fuel n s l w = Ok s' w' ->
  exists a,
    a ∈ l
    /\ l !! ((draw (rng w)).1 mod length l) = Some a
    /\ length (heap w') = S (length (heap w))
    /\ node w' (length (heap w))
       = mkNode (param (node w n)) (Some n) (Some a) [] [state_score s'] 1.
Proof.
  intros Hr Hn Hrun. apply reachable_wf in Hr.
  destruct (expand_nodes _ _ _ _ _ _ _ Hr Hn Hrun) as (a & Ha & Hlen & Hnew & _).
  exists a. split; [by eapply choice_elem | done].
Qed.

(** X8: The dictionary after a returning [expand]: the key of the chosen
    action leads to the new node, every other key leads where it led, and
    the number of entries grows by one only when the key was not there: two
    actions with the same key share one entry. *)
Theorem expand_dictionary fuel n s l w s' w' :
  reachable w -> n < length (heap w) ->
  expand fuel n s l w = Ok s' w' ->
  exists a,
    a ∈ l
    /\ dict_get (key a) (children (node w' n)) = Some (length (heap w))
    /\ (forall k, k <> key a ->
          dict_get k (children (node w' n)) = dict_get k (children (node w n)))
    /\ length (children (node w' n))
       = (if dict_mem (key a) (children (node w n))
          then length (children (node w n))
          else S (length (children (node w n))))
    /\ NoDup (dict_keys (children (node w' n))).
Proof.
  intros Hr Hn Hrun. apply reachable_wf in Hr.
  destruct (expand_nodes _ _ _ _ _ _ _ Hr Hn Hrun) as (a & Ha & _ & _ & Hch & _).
  exists a. split; [by eapply choice_elem|]. rewrite Hch.
  split; [apply dict_get_set_eq|]. split; [|split].
  - intros k Hk. apply dict_get_set_ne. congruence.
  - apply dict_set_length.
  - apply dict_set_NoDup, (wf_keys _ Hr).
Qed.

(** X9: [expand] raises exactly when it is given no candidate: the exception
    is the [IndexError] of [random.choice], and nothing has changed. *)
Theorem expand_raises_iff_empty fuel n s l w e w' :
  expand fuel n s l w = Raise e w' <-> l = [] /\ e = IndexError /\ w' = w.
Proof.
  split; [apply expand_Raise|].
  intros (-> & -> & ->). reflexivity.
Qed.

(** ** [select]: one expansion, or the [ValueError] of [max] *)

Lemma select_expands fuel n s w s' w' :
  wf w -> n < length (heap w) ->
  select fuel n s w = Ok s' w' ->
  rollout_count (trace w') = S (rollout_count (trace w))
  /\ length (heap w') = S (length (heap w))
  /\ visits (node w' 0) = S (visits (node w 0)).
Proof.
  revert n s w. induction fuel as [|fuel IH]; intros n s w Hwf Hn; simpl; [done|].
  destruct (Nat.ltb _ _).
  - intros Hrun. apply expand_Ok in Hrun as (a & _ & Hst); [|done..].
    pose proof (attached_post _ _ _ _ _ Hwf Hn Hst) as [_ _ [B1 B2 B3]].
    destruct Hst as [_ L _ _ _ T]. rewrite length_attach in L.
    change (trace (attach _ n a)) with (trace w) in T. simpl in L. lia.
  - destruct (py_max _ _) as [[k c0]|] eqn:Hmax; [|done].
    destruct (dict_get k (children (node w n))) as [c|] eqn:Hc; [|done].
    intros Hrun. apply dict_get_elem in Hc.
    destruct (wf_child _ Hwf _ _ _ Hc) as (Hlt & _).
    apply IH in Hrun; [done|done|lia].
Qed.

Lemma select_raise_kind fuel n s w e w' :
  wf w -> n < length (heap w) ->
  select fuel n s w = Raise e w' -> e = ValueError.
Proof.
  revert n s w. induction fuel as [|fuel IH]; intros n s w Hwf Hn; simpl; [done|].
  destruct (Nat.ltb_spec (length (children (node w n))) (length (get_actions s)))
    as [Hlt|Hge].
  - intros Hrun. apply expand_Raise in Hrun as (Hnil & _).
    rewrite Hnil in Hlt. simpl in Hlt. lia.
  - destruct (py_max _ _) as [[k c0]|] eqn:Hmax; [|by intros [= <- _]].
    pose proof (py_max_elem _ _ _ Hmax) as Hin.
    rewrite (dict_get_NoDup k c0) by (apply (wf_keys _ Hwf) || done).
    destruct (wf_child _ Hwf _ _ _ Hin) as (Hlt & _).
    apply IH; [done|lia].
Qed.

(** X10: A returning [select] on a reachable tree has expanded exactly once: one
    node more, one rollout more, one visit more at the root. *)
Theorem select_expands_once fuel n s w s' w' :
  reachable w -> n < length (heap w) ->
  select fuel n s w = Ok s' w' ->
  rollout_count (trace w') = S (rollout_count (trace w))
  /\ length (heap w') = S (length (heap w))
  /\ visits (node w' 0) = S (visits (node w 0)).
Proof.
  intros Hr Hn Hrun. apply reachable_wf in Hr. by eapply select_expands.
Qed.

(** X11: On a reachable tree [select] raises nothing but the [ValueError] of
    [max] on an empty dictionary, and then the tree, the generator and the
    trace are as before the call. *)
Theorem select_raises_only_ValueError fuel n s w e w' :
  reachable w -> n < length (heap w) ->
  select fuel n s w = Raise e w' -> e = ValueError /\ w' = w.
Proof.
  intros Hr Hn Hrun. apply reachable_wf in Hr.
  split; [by eapply select_raise_kind | by eapply select_Raise].
Qed.



(** ** [get_best]: a node with children always has an answer *)

Lemma children_visited_post k w w' :
  stats_post k w w' -> children_visited w -> children_visited w'.
Proof.
  intros [_ _ C [_ _ _ _ _ V] _ _] Hcv n key0 c. rewrite C. intros Hin.
  specialize (Hcv _ _ _ Hin). specialize (V c). lia.
Qed.

Lemma children_visited_expand fuel n s l w s' w' :
  wf w -> n < length (heap w) -> children_visited w ->
  expand fuel n s l w = Ok s' w' -> children_visited w'.
Proof.
  intros Hwf Hn Hcv Hrun.
  destruct (expand_nodes _ _ _ _ _ _ _ Hwf Hn Hrun)
    as (a & _ & Hlen & Hnew & Hch & Hother).
  apply expand_Ok in Hrun as (a' & _ & Hst); [|done..].
  pose proof (attached_post _ _ _ _ _ Hwf Hn Hst) as [_ [_ _ _ _ _ V] _].
  intros m k c Hin.
  assert (Hold : forall k0 c0, (k0, c0) ∈ children (node w m) ->
                               0 < visits (node w' c0)).
  { intros k0 c0 Hin0. specialize (Hcv _ _ _ Hin0). specialize (V c0). lia. }
  destruct (decide (m = n)) as [->|Hne].
  - rewrite Hch in Hin. apply dict_set_elem in Hin as [[= -> ->]|Hin].
    + rewrite Hnew. simpl. lia.
    + by eapply Hold.
  - destruct (decide (m < length (heap w))) as [Hm|Hm].
    + rewrite Hother in Hin by done. by eapply Hold.
    + destruct (decide (m = length (heap w))) as [->|Hne'].
      * rewrite Hnew in Hin. by apply elem_of_nil in Hin.
      * rewrite (node_ge w' m) in Hin by lia. by apply elem_of_nil in Hin.
Qed.

Lemma children_visited_step fuel n s w s' w' :
  wf w -> n < length (heap w) -> children_visited w ->
  step fuel n s w = Ok s' w' -> children_visited w'.
Proof.
  revert n s w. induction fuel as [|fuel IH]; intros n s w Hwf Hn Hcv; simpl; [done|].
  destruct (get_actions s) as [|a0 actions] eqn:Hacts.
  { by intros [= _ <-]. }
  destruct (unexplored_of (node w n) (a0 :: actions)) as [|u us] eqn:Hun.
  - destruct (choice (a0 :: actions) (draw (rng w)).1) as [a|]; [|done].
    destruct (dict_get (key a) (children (node w n))) as [c|] eqn:Hc.
    + intros Hrun. apply dict_get_elem in Hc.
      destruct (wf_child _ Hwf _ _ _ Hc) as (Hlt & _).
      apply IH in Hrun; [done|by apply wf_set_rng|simpl; lia|done].
    + by intros [= _ <-].
  - by apply children_visited_expand.
Qed.

Lemma children_visited_select fuel n s w s' w' :
  wf w -> n < length (heap w) -> children_visited w ->
  select fuel n s w = Ok s' w' -> children_visited w'.
Proof.
  revert n s w. induction fuel as [|fuel IH]; intros n s w Hwf Hn Hcv; simpl; [done|].
  destruct (Nat.ltb _ _).
  - by apply children_visited_expand.
  - destruct (py_max _ _) as [[k c0]|] eqn:Hmax; [|done].
    destruct (dict_get k (children (node w n))) as [c|] eqn:Hc; [|done].
    intros Hrun. apply dict_get_elem in Hc.
    destruct (wf_child _ Hwf _ _ _ Hc) as (Hlt & _).
    apply IH in Hrun; [done|done|lia|done].
Qed.

Lemma reachable_children_visited w : reachable w -> children_visited w.
Proof.
  induction 1 as [p g | w g _ IH | w fuel n s w' Hr IH Hn Hrun
                 | w fuel n s l w' Hr IH Hn Hrun | w fuel n s w' Hr IH Hn Hrun
                 | w fuel n r w' Hr IH Hn Hrun | w fuel n s w' Hr IH Hn Hrun
                 | w n s Hr IH Hn].
  - intros [|n] k c Hin; by apply elem_of_nil in Hin.
  - done.
  - apply reachable_wf in Hr.
    destruct (step fuel n s w) as [s1 w1|e w1|] eqn:Hst; simplify_eq/=.
    + by eapply children_visited_step.
    + by apply step_no_raise in Hst.
  - apply reachable_wf in Hr.
    destruct (expand fuel n s l w) as [s1 w1|e w1|] eqn:Hst; simplify_eq/=.
    + by eapply children_visited_expand.
    + by apply expand_Raise in Hst as (_ & _ & ->).
  - apply reachable_wf in Hr.
    destruct (rollout fuel n s w) as [s1 w1|e w1|] eqn:Hst; simplify_eq/=.
    + apply rollout_Ok in Hst; [|done..]. by eapply children_visited_post.
    + by apply rollout_no_raise in Hst.
  - apply reachable_wf in Hr.
    destruct (backpropagate fuel n r w) as [s1 w1|e w1|] eqn:Hst; simplify_eq/=.
    + apply backpropagate_Ok in Hst; [|done..]. by eapply children_visited_post.
    + by apply backpropagate_no_raise in Hst.
  - apply reachable_wf in Hr.
    destruct (select fuel n s w) as [s1 w1|e w1|] eqn:Hst; simplify_eq/=.
    + by eapply children_visited_select.
    + by apply select_Raise in Hst as ->.
  - by destruct (get_best_world n s w) as [->|[g ->]].
Qed.

Lemma get_best_Some n s w :
  wf w -> children_visited w -> children (node w n) <> [] ->
  exists k c a,
    (k, c) ∈ children (node w n) /\ action (node w c) = Some a /\ key a = k
    /\ get_best n s w = (Some a, w).
Proof.
  intros Hwf Hcv Hne. unfold get_best.
  destruct (children (node w n)) as [|[k0 c0] d] eqn:Hch; [done|].
  destruct (best_child w (dict_values ((k0, c0) :: d))) as [c|] eqn:Hbest.
  - apply best_child_Some in Hbest as (Hc & _).
    unfold dict_values in Hc. apply list_elem_of_fmap in Hc as ([k c'] & -> & Hin).
    simpl. rewrite <- Hch in Hin.
    destruct (wf_child _ Hwf _ _ _ Hin) as (_ & _ & Hact).
    destruct (action (node w c')) as [a|] eqn:Ha; [|done].
    exists k, c', a. rewrite Hch in Hin. simpl in Hact. by simplify_eq.
  - exfalso. pose proof (best_child_None _ _ Hbest c0) as Hzero.
    assert (Hin : (k0, c0) ∈ children (node w n)).
    { rewrite Hch. apply list_elem_of_here. }
    specialize (Hcv _ _ _ Hin).
    rewrite Hzero in Hcv; [lia|]. simpl. apply list_elem_of_here.
Qed.

(** X14: On a reachable tree every child in a dictionary has been visited, so
    [get_best] on a node with children never comes back empty: it returns
    the action of one of the children, whose key is that child's key in the
    dictionary, and leaves the tree and the generator as they are. *)
Theorem get_best_answers n s w :
  reachable w -> children (node w n) <> [] ->
  exists k c a,
    (k, c) ∈ children (node w n)
    /\ 0 < visits (node w c)
    /\ action (node w c) = Some a /\ key a = k
    /\ get_best n s w = (Some a, w).
Proof.
  intros Hr Hne.
  pose proof (reachable_children_visited _ Hr) as Hcv. apply reachable_wf in Hr.
  destruct (get_best_Some n s w Hr Hcv Hne) as (k & c & a & Hin & Ha & Hk & Hbest).
  exists k, c, a. repeat split; try done. by eapply Hcv.
Qed.

(** ** [print_tree] *)

Lemma print_fold_None (f : nat -> option (list Line)) cs :
  fold_left (fun acc c =>
               match acc, f c with
               | Some ls, Some ls' => Some (ls ++ ls')
               | _, _ => None
               end) cs None = None.
Proof. induction cs as [|c cs IH]; simpl; [done|]. apply IH. Qed.

Lemma print_fold_Forall (Q : Line -> Prop) (f : nat -> option (list Line)) cs acc ls :
  (forall c ls', c ∈ cs -> f c = Some ls' -> Forall Q ls') ->
  Forall Q acc ->
  fold_left (fun acc c =>
               match acc, f c with
               | Some ls, Some ls' => Some (ls ++ ls')
               | _, _ => None
               end) cs (Some acc) = Some ls ->
  Forall Q ls.
Proof.
  revert acc. induction cs as [|c cs IH]; intros acc Hf Hacc; simpl.
  - by intros [= <-].
  - destruct (f c) as [ls'|] eqn:Hc.
    + apply IH.
      * intros c' ls0 Hc'. apply Hf. by apply list_elem_of_further.
      * apply Forall_app. split; [done|].
        eapply Hf; [apply list_elem_of_here | done].
    + by rewrite print_fold_None.
Qed.

Lemma print_fold_Some (f : nat -> option (list Line)) cs acc :
  (forall c, c ∈ cs -> is_Some (f c)) ->
  is_Some (fold_left (fun acc c =>
                        match acc, f c with
                        | Some ls, Some ls' => Some (ls ++ ls')
                        | _, _ => None
                        end) cs (Some acc)).
Proof.
  revert acc. induction cs as [|c cs IH]; intros acc Hf; simpl; [by eexists|].
  destruct (Hf c) as [ls' ->]; [apply list_elem_of_here|].
  apply IH. intros c' Hc'. apply Hf. by apply list_elem_of_further.
Qed.

Lemma print_tree_lines fuel w n indent ls :
  print_tree fuel w n indent = Some ls ->
  exists rest,
    ls = TreeLine indent (key <$> action (node w n)) (visits (node w n))
                  (if Nat.ltb 0 (visits (node w n)) then mean (node w n) else 0%Q)
         :: rest
    /\ Forall (fun l => exists i, line_indent l = Some i /\ indent < i) rest.
Proof.
  revert n indent ls. induction fuel as [|fuel IH]; intros n indent ls; [done|].
  cbn [print_tree].
  destruct (fold_left _ _ _) as [rest|] eqn:Hfold; [|done].
  intros [= <-]. exists rest. split; [done|].
  eapply (print_fold_Forall _ (fun c => print_tree fuel w c (indent + 1)));
    [|apply Forall_nil_2|exact Hfold].
  intros c ls' _ Hc. apply IH in Hc as (rest' & -> & Hrest).
  apply Forall_cons. split.
  - exists (indent + 1). split; [done|lia].
  - eapply Forall_impl; [exact Hrest|].
    intros l (i & Hi & Hlt). exists i. split; [done|lia].
Qed.

Lemma print_tree_is_Some fuel w n indent :
  wf w -> 0 < fuel -> length (heap w) <= n + fuel ->
  is_Some (print_tree fuel w n indent).
Proof.
  intros Hwf. revert n indent.
  induction fuel as [|fuel IH]; intros n indent Hpos Hlen; [lia|].
  cbn [print_tree].
  destruct (print_fold_Some (fun c => print_tree fuel w c (indent + 1))
              (dict_values (children (node w n))) []) as [rest Hrest].
  - intros c Hc. unfold dict_values in Hc.
    apply list_elem_of_fmap in Hc as ([k c'] & -> & Hin).
    destruct (wf_child _ Hwf _ _ _ Hin) as (Hlt & _). simpl.
    apply IH; lia.
  - rewrite Hrest. by eexists.
Qed.

(** X16: What [print_tree] prints starts with the line of the node itself, at
    the requested indentation, with its name (ROOT without action), its
    visits and its mean outcome (0 without visits); every later line is a
    line of the tree indented strictly deeper. *)
Theorem print_tree_shape fuel w n indent ls :
  print_tree fuel w n indent = Some ls ->
  exists rest,
    ls = TreeLine indent (key <$> action (node w n)) (visits (node w n))
                  (if Nat.ltb 0 (visits (node w n)) then mean (node w n) else 0%Q)
         :: rest
    /\ Forall (fun l => exists i, line_indent l = Some i /\ indent < i) rest.
Proof. apply print_tree_lines. Qed.

Lemma reachable_nonempty w : reachable w -> 0 < length (heap w).
Proof.
  induction 1 as [p g | w g _ IH | w fuel n s w' Hr IH Hn Hrun
                 | w fuel n s l w' Hr IH Hn Hrun | w fuel n s w' Hr IH Hn Hrun
                 | w fuel n r w' Hr IH Hn Hrun | w fuel n s w' Hr IH Hn Hrun
                 | w n s Hr IH Hn].
  - simpl. lia.
  - done.
  - apply reachable_wf in Hr.
    destruct (step fuel n s w) as [s1 w1|e w1|] eqn:Hst; simplify_eq/=.
    + apply step_Ok in Hst as [_ [L _ _ _ _ _] _ _ _]; [lia|done..].
    + by apply step_no_raise in Hst.
  - apply reachable_wf in Hr.
    destruct (expand fuel n s l w) as [s1 w1|e w1|] eqn:Hst; simplify_eq/=.
    + apply expand_Ok in Hst as (a & _ & [_ L _ _ _ _]); [|done..].
      rewrite L, length_attach. lia.
    + by apply expand_Raise in Hst as (_ & _ & ->).
  - apply reachable_wf in Hr.
    destruct (rollout fuel n s w) as [s1 w1|e w1|] eqn:Hst; simplify_eq/=.
    + apply rollout_Ok in Hst as [_ L _ _ _ _]; [lia|done..].
    + by apply rollout_no_raise in Hst.
  - apply reachable_wf in Hr.
    destruct (backpropagate fuel n r w) as [s1 w1|e w1|] eqn:Hst; simplify_eq/=.
    + apply backpropagate_Ok in Hst as [_ L _ _ _ _]; [lia|done..].
    + by apply backpropagate_no_raise in Hst.
  - apply reachable_wf in Hr.
    destruct (select fuel n s w) as [s1 w1|e w1|] eqn:Hst; simplify_eq/=.
    + apply select_Ok in Hst as [_ [L _ _ _ _ _] _]; [lia|done..].
    + by apply select_Raise in Hst as ->.
  - by destruct (get_best_world n s w) as [->|[g ->]].
Qed.

(** X17: On a reachable tree [print_tree] returns from every node once the
    fuel covers the nodes of the arena. *)
Theorem print_tree_returns fuel w n indent :
  reachable w -> length (heap w) <= fuel ->
  is_Some (print_tree fuel w n indent).
Proof.
  intros Hr Hlen. pose proof (reachable_wf _ Hr) as Hwf.
  pose proof (reachable_nonempty _ Hr) as Hpos.
  apply print_tree_is_Some; [done|lia|lia].
Qed.

(** ** The loop of [choose_card] *)

Lemma searched_fresh p g : searched (fresh p g).
Proof. split; [apply wf_fresh | done | done]. Qed.

Lemma searched_step fuel s w g s' w' :
  searched w -> step fuel 0 s (set_rng w g) = Ok s' w' ->
  searched w'
  /\ rollout_count (trace w') <= S (rollout_count (trace w)).
Proof.
  intros [Hwf Hroot Hsize] Hst.
  assert (Hwf' : wf (set_rng w g)) by (by apply wf_set_rng).
  assert (Hn : 0 < length (heap (set_rng w g))) by (simpl; lia).
  pose proof (step_size _ _ _ _ _ _ Hwf' Hn Hst) as Hsz.
  apply step_Ok in Hst as [W _ _ _ [B1 B2 B3]]; [|done..].
  simpl in *. change (node (set_rng w g) 0) with (node w 0) in B1.
  split; [|done]. split; [done|lia|lia].
Qed.

Lemma run_iterations_searched fuel iterations bs w u w' :
  searched w ->
  run_iterations fuel iterations bs w = Ok u w' ->
  searched w'
  /\ rollout_count (trace w') <= iterations + rollout_count (trace w).
Proof.
  revert w. induction iterations as [|i IH]; intros w Hs; simpl.
  - intros [= _ <-]. split; [done|lia].
  - destruct (copy_undeterministic bs (rng w)) as [sample g].
    destruct (step fuel 0 sample (set_rng w g)) as [s1 w1|e w1|] eqn:Hst; [|done..].
    intros Hrun. apply searched_step in Hst as [Hs1 Hle]; [|done].
    apply IH in Hrun as [Hs' Hle']; [|done]. split; [done|lia].
Qed.

Lemma run_iterations_no_raise fuel iterations bs w e w' :
  run_iterations fuel iterations bs w <> Raise e w'.
Proof.
  revert w. induction iterations as [|i IH]; intros w; simpl; [done|].
  destruct (copy_undeterministic bs (rng w)) as [sample g].
  destruct (step fuel 0 sample (set_rng w g)) as [s1 w1|e1 w1|] eqn:Hst;
    [apply IH| |done].
  by apply step_no_raise in Hst.
Qed.

Lemma run_iterations_reachable fuel iterations bs w u w' :
  reachable w -> 0 < length (heap w) ->
  run_iterations fuel iterations bs w = Ok u w' -> reachable w'.
Proof.
  revert w. induction iterations as [|i IH]; intros w Hr Hn; simpl.
  - by intros [= _ <-].
  - destruct (copy_undeterministic bs (rng w)) as [sample g].
    destruct (step fuel 0 sample (set_rng w g)) as [s1 w1|e w1|] eqn:Hst; [|done..].
    assert (Hr1 : reachable w1).
    { eapply (reach_step (set_rng w g) fuel 0 sample);
        [by apply reach_rng | done | by rewrite Hst]. }
    apply IH; [done | by apply reachable_nonempty].
Qed.



(** X18: When the loop of [choose_card] returns, the tree is one that the
    methods can build, the root has been visited once per rollout and at
    most once per iteration, and the tree has one node per rollout besides
    the root. *)
Theorem search_loop_budget fuel iterations bs p g w :
  run_iterations fuel iterations bs (fresh p g) = Ok tt w ->
  reachable w
  /\ visits (node w 0) <= iterations
  /\ visits (node w 0) = rollout_count (trace w)
  /\ length (heap w) = S (visits (node w 0)).
Proof.
  intros Hrun. split.
  - eapply run_iterations_reachable; [apply reach_fresh | simpl; lia | done].
  - apply run_iterations_searched in Hrun as [[_ Hroot Hsize] Hle];
      [|apply searched_fresh].
    change (rollout_count (trace (fresh p g))) with 0 in Hle.
    rewrite Hroot. split; [lia|]. split; [done|lia].
Qed.

(** ** The decision of [choose_card] *)



Lemma conclude_Failed fuel verbose game_state battle_state w e out :
  conclude fuel verbose game_state battle_state w = Failed e out ->
  e = IndexError
  /\ get_choose_card_options game_state battle_state = []
  /\ exists lines, out = lines ++ [TextLine warning].
Proof.
  unfold conclude. destruct (get_best 0 battle_state w) as [best w1].
  destruct (if verbose then print_tree fuel w1 0 0 else Some []) as [lines|]; [|done].
  destruct best as [a|]; [done|].
  destruct (choice _ _) as [d|] eqn:Hd; [done|].
  intros [= <- <-]. split; [done|]. split; [by eapply choice_None | by exists lines].
Qed.

(** X20: The only failure of [choose_card] is the [IndexError] of the fallback
    on an empty list of options, after the warning has been printed. *)
Theorem choose_card_fails_only_in_fallback
        fuel iterations verbose p game_state battle_state g e out :
  choose_card fuel iterations verbose p game_state battle_state g = Failed e out ->
  e = IndexError
  /\ get_choose_card_options game_state battle_state = []
  /\ exists lines, out = lines ++ [TextLine warning].
Proof.
  unfold choose_card.
  destruct (run_iterations fuel iterations battle_state (fresh p g))
    as [u w|e1 w|] eqn:Hrun.
  - intros Hfail.
    assert (Hc : conclude fuel verbose game_state battle_state w = Failed e out).
    { by destruct (get_actions battle_state) as [|a1 [|a2 l]]. }
    by eapply conclude_Failed.
  - by apply run_iterations_no_raise in Hrun.
  - by destruct (get_actions battle_state) as [|a1 [|a2 l]].
Qed.

Lemma conclude_verbose fuel game_state battle_state w d out g' :
  conclude fuel true game_state battle_state w = Decided d out g' ->
  exists lines out',
    print_tree fuel (get_best 0 battle_state w).2 0 0 = Some lines
    /\ out = lines ++ out'
    /\ conclude fuel false game_state battle_state w = Decided d out' g'.
Proof.
  unfold conclude. destruct (get_best 0 battle_state w) as [best w1]. simpl.
  destruct (print_tree fuel w1 0 0) as [lines|]; [|done].
  destruct best as [a|].
  - intros [= <- <- <-]. exists lines, []. by rewrite app_nil_r.
  - destruct (choice _ _) as [d0|]; [|done].
    intros [= <- <- <-]. by exists lines, [TextLine warning].
Qed.

(** X21: Printing the tree has no effect on the decision: what the verbose
    [choose_card] decides, the silent one decides too, with the same
    generator left; the verbose output is that of the silent one after the
    lines of the tree. *)
Theorem choose_card_verbose_same_decision
        fuel iterations p game_state battle_state g d out g' :
  choose_card fuel iterations true p game_state battle_state g = Decided d out g' ->
  exists lines out',
    out = lines ++ out'
    /\ Forall (fun l => line_indent l <> None) lines
    /\ choose_card fuel iterations false p game_state battle_state g
       = Decided d out' g'.
Proof.
  unfold choose_card.
  assert (Hone : forall a, (Decided (to_action a battle_state) [] g : verdict)
                           = Decided d out g' ->
            exists lines out',
              out = lines ++ out'
              /\ Forall (fun l => line_indent l <> None) lines
              /\ (Decided (to_action a battle_state) [] g : verdict)
                 = Decided d out' g').
  { intros a [= <- <- <-]. by exists [], []. }
  assert (Hmany :
    match run_iterations fuel iterations battle_state (fresh p g) with
    | Ok _ w => conclude fuel true game_state battle_state w
    | Raise e _ => Failed e []
    | OutOfFuel => Unfinished
    end = Decided d out g' ->
    exists lines out',
      out = lines ++ out'
      /\ Forall (fun l => line_indent l <> None) lines
      /\ match run_iterations fuel iterations battle_state (fresh p g) with
         | Ok _ w => conclude fuel false game_state battle_state w
         | Raise e _ => Failed e []
         | OutOfFuel => Unfinished
         end = Decided d out' g').
  { destruct (run_iterations _ _ _ _) as [u w|e w|]; [|done..].
    intros Hc. apply conclude_verbose in Hc as (lines & out' & Hp & -> & Hc).
    exists lines, out'. split; [done|]. split; [|done].
    apply print_tree_lines in Hp as (rest & -> & Hrest).
    apply Forall_cons. split; [done|].
    eapply Forall_impl; [exact Hrest|]. intros l (i & Hi & _). by rewrite Hi. }
  destruct (get_actions battle_state) as [|a1 [|a2 l]]; auto.
Qed.

(** ** With enough fuel [choose_card] decides *)

Section Budget.
(** A battle in which every legal action brings the end nearer, and whose
    snapshots are no further from the end than the battle itself. *)
Variable mu : State -> nat.
Hypothesis mu_step :
  forall s a, a ∈ get_actions s -> mu (state_step s a) < mu s.
Hypothesis mu_copy :
  forall s g, mu (copy_undeterministic s g).1 <= mu s.

Lemma run_iterations_returns fuel iterations bs w :
  searched w ->
  mu bs + length (heap w) + iterations <= fuel ->
  exists w', run_iterations fuel iterations bs w = Ok tt w'.
Proof using mu_step mu_copy.
  revert w. induction iterations as [|i IH]; intros w Hs Hfuel; simpl.
  - by eexists.
  - pose proof (mu_copy bs (rng w)) as Hcopy.
    destruct (copy_undeterministic bs (rng w)) as [sample g]. simpl in Hcopy.
    destruct Hs as [Hwf Hroot Hsize].
    destruct (step_returns mu mu_step fuel 0 sample (set_rng w g))
      as (s1 & w1 & Hst); [by apply wf_set_rng | simpl; lia | simpl; lia |].
    rewrite Hst.
    pose proof (searched_step _ _ _ _ _ _ (mk_searched _ Hwf Hroot Hsize) Hst)
      as [Hs1 Hle].
    apply IH; [done|]. destruct Hs1 as [_ _ Hsize1]. lia.
Qed.

(** X22: In such a battle, with fuel beyond the measure of the battle plus the
    iterations plus one, and options for the fallback, [choose_card] always
    returns a decision. *)
Theorem choose_card_decides fuel iterations verbose p game_state battle_state g :
  mu battle_state + iterations + 1 <= fuel ->
  get_choose_card_options game_state battle_state <> [] ->
  exists d out g',
    choose_card fuel iterations verbose p game_state battle_state g
    = Decided d out g'.
Proof using mu_step mu_copy.
  intros Hfuel Hopts. unfold choose_card.
  destruct (run_iterations_returns fuel iterations battle_state (fresh p g))
    as [w Hrun]; [apply searched_fresh | simpl; lia |].
  assert (Hend : exists d out g',
             conclude fuel verbose game_state battle_state w = Decided d out g').
  { pose proof (run_iterations_searched _ _ _ _ _ _ (searched_fresh p g) Hrun)
      as [[Hwf _ Hsize] Hle].
    change (rollout_count (trace (fresh p g))) with 0 in Hle.
    unfold conclude.
    destruct (get_best 0 battle_state w) as [best w1] eqn:Hbest.
    assert (Hheap : wf w1 /\ length (heap w1) = length (heap w)).
    { pose proof (get_best_world 0 battle_state w) as Hw. rewrite Hbest in Hw.
      simpl in Hw. destruct Hw as [->|[g0 ->]]; [done|].
      split; [by apply wf_set_rng | done]. }
    destruct Hheap as [Hwf1 Hlen1].
    assert (Hprint : exists lines,
               (if verbose then print_tree fuel w1 0 0 else Some []) = Some lines).
    { destruct verbose; [|by eexists].
      destruct (print_tree_is_Some fuel w1 0 0 Hwf1) as [lines ->];
        [lia | lia | by eexists]. }
    destruct Hprint as [lines ->].
    destruct best as [a|]; [by eexists _, _, _|].
    destruct (choice_is_Some _ (draw (rng w1)).1 Hopts) as [d ->].
    by eexists _, _, _. }
  rewrite Hrun. destruct Hend as (d & out & g' & Hend).
  destruct (get_actions battle_state) as [|a1 [|a2 l]]; [| by eexists _, _, _ |];
    rewrite Hend; by eexists _, _, _.
Qed.

End Budget.

(** ** Ties go to the earliest entry *)







(** ** Visits add up through a tree built by [step] *)

Lemma wf_values_NoDup w n : wf w -> NoDup (dict_values (children (node w n))).
Proof.
  intros Hwf. unfold dict_values. apply NoDup_fmap_2_strong.
  - intros [k1 c1] [k2 c2] H1 H2 Heq. simpl in Heq. subst c2.
    destruct (wf_child _ Hwf _ _ _ H1) as (_ & _ & Ha1).
    destruct (wf_child _ Hwf _ _ _ H2) as (_ & _ & Ha2).
    congruence.
  - eapply NoDup_fmap_1. apply (wf_keys _ Hwf n).
Qed.

Lemma sum_visits_record w x r l :
  x < length (heap w) -> NoDup l ->
  sum_list_with (fun c => visits (node (record w x r) c)) l
  = sum_list_with (fun c => visits (node w c)) l
    + (if decide (x ∈ l) then 1 else 0).
Proof.
  intros Hx. induction l as [|c l IH]; intros Hnd; cbn [sum_list_with].
  - rewrite decide_False; [done | apply not_elem_of_nil].
  - apply NoDup_cons in Hnd as [Hc Hnd]. rewrite IH by done.
    rewrite node_record by done.
    destruct (decide (c = x)) as [->|Hne].
    + rewrite (decide_True (P := x ∈ x :: l)) by apply list_elem_of_here.
      rewrite decide_False by done. simpl. lia.
    + destruct (decide (x ∈ l)) as [Hin|Hnin].
      * rewrite decide_True by (by apply list_elem_of_further). lia.
      * rewrite decide_False; [lia|].
        intros Hin. apply elem_of_cons in Hin as [?|?]; by auto.
Qed.

Lemma child_visits_record w x r m :
  wf w -> x < length (heap w) ->
  child_visits (record w x r) m
  = child_visits w m
    + (if decide (x ∈ dict_values (children (node w m))) then 1 else 0).
Proof.
  intros Hwf Hx. unfold child_visits. rewrite children_record by done.
  apply sum_visits_record; [done | by apply wf_values_NoDup].
Qed.

Lemma all_attached_record w x r :
  x < length (heap w) -> all_attached w -> all_attached (record w x r).
Proof.
  intros Hx Hat q m. rewrite length_record, parent_record, children_record by done.
  apply Hat.
Qed.

Lemma pending_record w x r :
  wf w -> all_attached w -> x < length (heap w) ->
  pending w (Some x) -> pending (record w x r) (parent (node w x)).
Proof.
  intros Hwf Hat Hx Hpend m. rewrite length_record. intros Hm.
  specialize (Hpend m Hm).
  rewrite child_visits_record, node_record by done.
  destruct (decide (m = x)) as [->|Hne].
  - rewrite decide_True in Hpend by done.
    rewrite (decide_False (P := x ∈ _)).
    + rewrite decide_False.
      * simpl. lia.
      * intros Hp. apply (wf_parent _ Hwf) in Hp. lia.
    + intros Hin. unfold dict_values in Hin.
      apply list_elem_of_fmap in Hin as ([k c] & -> & Hin).
      destruct (wf_child _ Hwf _ _ _ Hin) as (Hlt & _). simpl in Hlt. lia.
  - rewrite decide_False in Hpend by congruence.
    destruct (decide (parent (node w x) = Some m)) as [Hp|Hp].
    + rewrite decide_True; [lia|].
      destruct (Hat _ _ Hx Hp) as [k Hin].
      unfold dict_values. apply list_elem_of_fmap. by exists (k, x).
    + rewrite decide_False; [lia|].
      intros Hin. unfold dict_values in Hin.
      apply list_elem_of_fmap in Hin as ([k c] & -> & Hin).
      by destruct (wf_child _ Hwf _ _ _ Hin) as (_ & Hpar & _).
Qed.

Lemma pending_backpropagate fuel x r w u w' :
  wf w -> all_attached w -> x < length (heap w) ->
  pending w (Some x) ->
  backpropagate fuel x r w = Ok u w' ->
  pending w' None /\ all_attached w'.
Proof.
  revert x w. induction fuel as [|fuel IH]; intros x w Hwf Hat Hx Hpend; [done|].
  simpl. rewrite parent_record by done.
  pose proof (pending_record w x r Hwf Hat Hx Hpend) as Hnext.
  pose proof (all_attached_record w x r Hx Hat) as Hat1.
  destruct (parent (node w x)) as [p|] eqn:Hp.
  - pose proof (wf_parent _ Hwf _ _ Hp) as Hlt.
    apply IH; [by apply wf_record | done | rewrite length_record; lia | done].
  - by intros [= _ <-].
Qed.

Lemma pending_attach w n a :
  wf w -> all_attached w -> n < length (heap w) ->
  dict_get (key a) (children (node w n)) = None ->
  pending w None ->
  pending (attach w n a) (Some (length (heap w)))
  /\ all_attached (attach w n a).
Proof.
  intros Hwf Hat Hn Hnew Hpend.
  assert (Hvis : forall c, visits (node (attach w n a) c) = visits (node w c)).
  { intros c. rewrite node_attach by done.
    destruct (decide (c = n)) as [->|?]; [done|].
    destruct (decide (c = length (heap w))) as [->|?]; [|done].
    by rewrite (node_ge w (length (heap w))). }
  assert (Hsum : forall l, sum_list_with (fun c => visits (node (attach w n a) c)) l
                           = sum_list_with (fun c => visits (node w c)) l).
  { induction l as [|c l IH]; simpl; [done|]. by rewrite Hvis, IH. }
  split.
  - intros m. rewrite length_attach. intros Hm.
    unfold child_visits. rewrite Hsum, Hvis. rewrite node_attach by done.
    destruct (decide (m = length (heap w))) as [->|Hne].
    + rewrite (decide_False (P := length (heap w) = n)) by lia.
      rewrite (decide_True (P := Some _ = Some _)) by done.
      rewrite (node_ge w (length (heap w))) by done.
      unfold own_visit. rewrite decide_False by lia. done.
    + rewrite (decide_False (P := Some _ = Some m)) by congruence.
      assert (Hm' : m < length (heap w)) by lia.
      specialize (Hpend m Hm'). rewrite decide_False in Hpend by done.
      unfold child_visits in Hpend.
      destruct (decide (m = n)) as [->|Hne'].
      * simpl. rewrite dict_set_fresh by done. unfold dict_values.
        rewrite fmap_app, sum_list_with_app. simpl.
        rewrite (node_ge w (length (heap w))) by done. simpl.
        unfold dict_values in Hpend. lia.
      * done.
  - intros q m. rewrite length_attach, !node_attach by done. intros Hq.
    destruct (decide (q = n)) as [->|Hqn].
    + simpl. intros Hp. destruct (Hat _ _ Hn Hp) as [k Hin]. exists k.
      destruct (decide (m = n)) as [->|?].
      * apply (wf_parent _ Hwf) in Hp. lia.
      * rewrite decide_False; [done|].
        destruct (wf_child _ Hwf _ _ _ Hin). lia.
    + destruct (decide (q = length (heap w))) as [->|Hql].
      * simpl. intros [= <-]. exists (key a). rewrite decide_True by done.
        simpl. rewrite dict_set_fresh by done.
        apply elem_of_app. right. apply list_elem_of_here.
      * intros Hp. assert (Hq' : q < length (heap w)) by lia.
        destruct (Hat _ _ Hq' Hp) as [k Hin]. exists k.
        destruct (decide (m = n)) as [->|?].
        -- simpl. rewrite dict_set_fresh by done. apply elem_of_app. by left.
        -- rewrite decide_False; [done|].
           destruct (wf_child _ Hwf _ _ _ Hin). lia.
Qed.

Lemma pending_step fuel n s w s' w' :
  wf w -> all_attached w -> pending w None -> n < length (heap w) ->
  step fuel n s w = Ok s' w' ->
  pending w' None /\ all_attached w'.
Proof.
  revert n s w. induction fuel as [|fuel IH]; intros n s w Hwf Hat Hpend Hn;
    simpl; [done|].
  destruct (get_actions s) as [|a0 actions] eqn:Hacts.
  { by intros [= _ <-]. }
  destruct (unexplored_of (node w n) (a0 :: actions)) as [|u us] eqn:Hun.
  - destruct (choice (a0 :: actions) (draw (rng w)).1) as [a|]; [|done].
    destruct (dict_get (key a) (children (node w n))) as [c|] eqn:Hc.
    + intros Hrun. apply dict_get_elem in Hc.
      destruct (wf_child _ Hwf _ _ _ Hc) as (Hlt & _).
      apply IH in Hrun; [done|by apply wf_set_rng|done|done|simpl; lia].
    + by intros [= _ <-].
  - unfold expand.
    destruct (choice (u :: us) (draw (rng w)).1) as [a|] eqn:Ha; [|done].
    assert (Hnew : dict_get (key a) (children (node w n)) = None).
    { apply choice_elem in Ha. rewrite <- Hun in Ha.
      by apply unexplored_of_elem in Ha as [_ ?]. }
    set (w0 := set_rng w (draw (rng w)).2).
    destruct (pending_attach w0 n a) as [Hp1 Hat1]; [by apply wf_set_rng|done..|].
    unfold rollout.
    destruct (rollout_loop _ _ _) as [[s1 g1]|]; [|done].
    destruct (backpropagate _ _ _ _) as [u0 w2|e w2|] eqn:Hbp; [|done|done].
    intros [= _ <-].
    eapply pending_backpropagate; [| | | |exact Hbp].
    + apply wf_log_rollout, wf_set_rng, wf_attach; [by apply wf_set_rng|done].
    + done.
    + simpl. rewrite length_app, length_insert. simpl. lia.
    + done.
Qed.

Lemma stepped_inv w :
  stepped w -> wf w /\ all_attached w /\ pending w None.
Proof.
  induction 1 as [p g | w g _ IH | w fuel n s s' w' _ IH Hn Hst].
  - split; [apply wf_fresh|]. split.
    + intros [|q] m Hq; [done | simpl in Hq; lia].
    + intros [|m] Hm; [done | simpl in Hm; lia].
  - destruct IH as (Hwf & Hat & Hp). split; [by apply wf_set_rng | done].
  - destruct IH as (Hwf & Hat & Hp).
    destruct (pending_step _ _ _ _ _ _ Hwf Hat Hp Hn Hst) as [Hp' Hat'].
    split; [by apply step_Ok in Hst as []|done].
Qed.

(** X23: In a tree built by [step] alone, the visits of the root are the sum of
    the visits of its children, and the visits of every other node are one
    (the rollout that created it) more than the sum of the visits of its
    children. *)
Theorem visits_add_up w n :
  stepped w -> n < length (heap w) ->
  visits (node w n) = own_visit n + child_visits w n.
Proof.
  intros Hs Hn. apply stepped_inv in Hs as (_ & _ & Hp).
  specialize (Hp n Hn). rewrite decide_False in Hp by done. lia.
Qed.

End MCTS.

Arguments Ok {Action Key A} a w.
Arguments Raise {Action Key A} e w.
Arguments OutOfFuel {Action Key A}.

(** * The search on the small battle *)

Notation "'tstep'" :=
  (step Toy.key Toy.get_actions Toy.step Toy.ended Toy.score) (only parsing).
Notation "'tselect'" :=
  (select Toy.key Toy.get_actions Toy.step Toy.apply_action Toy.ended Toy.score
          Toy.sqrt_approx Toy.log_approx) (only parsing).
Notation "'tbest'" := (get_best Toy.get_actions) (only parsing).
Notation "'tchoose'" :=
  (choose_card Toy.key Toy.get_actions Toy.step Toy.ended Toy.score
               Toy.to_action Toy.copy_undeterministic Toy.get_choose_card_options)
  (only parsing).
Notation "'treachable'" :=
  (reachable Toy.key Toy.get_actions Toy.step Toy.apply_action Toy.ended Toy.score
             Toy.sqrt_approx Toy.log_approx) (only parsing).
Notation "'titerated'" :=
  (iterated Toy.key Toy.get_actions Toy.step Toy.ended Toy.score) (only parsing).
(** A fresh tree, and the trees after one and two iterations of [step]. *)
Notation "'toy0'" := (fresh (1 # 2) [0; 0; 1; 1; 0; 1] : @World Toy.move nat) (only parsing).
Notation "'toy1'" := (settle (tstep 5 0 Toy.start toy0) toy0) (only parsing).
Notation "'toy2'" := (settle (tstep 5 0 Toy.start toy1) toy0) (only parsing).
(** The fresh tree that [choose_card] builds on the generator [0; 1]. *)
Notation "'agent0'" := (fresh (1 # 2) [0; 1] : @World Toy.move nat) (only parsing).
(** The trees after one and two calls of [select] on a fresh root. *)
Notation "'sel0'" := (fresh (1 # 2) [0; 0; 0; 1] : @World Toy.move nat) (only parsing).
Notation "'sel1'" := (settle (tselect 5 0 Toy.start sel0) sel0) (only parsing).
Notation "'sel2'" := (settle (tselect 5 0 Toy.start sel1) sel0) (only parsing).

Lemma toy1_reachable : treachable toy1.
Proof.
  apply (reach_step _ _ _ _ _ _ _ _ toy0 5 0 Toy.start);
    [apply reach_fresh | simpl; lia | reflexivity].
Defined.

Lemma toy2_reachable : treachable toy2.
Proof.
  apply (reach_step _ _ _ _ _ _ _ _ toy1 5 0 Toy.start);
    [apply toy1_reachable | simpl; lia | reflexivity].
Defined.

Example toy2_tree :
  children (node toy2 0) = [(0, 1); (1, 2)]
  /\ results (node toy2 0) = [4%Q; 0%Q]
  /\ results (node toy2 1) = [4%Q] /\ action (node toy2 1) = Some Toy.X
  /\ results (node toy2 2) = [0%Q] /\ action (node toy2 2) = Some Toy.Y.
Proof. by vm_compute. Qed.


Lemma visits_results_backprops_witness :
  treachable toy2
  /\ visits (node toy2 0) = length (results (node toy2 0))
  /\ length (results (node toy2 0)) = backprop_count 0 (trace toy2).
Proof.
  split; [apply toy2_reachable|].
  apply (visits_results_backprops Toy.key Toy.get_actions Toy.step Toy.apply_action
           Toy.ended Toy.score Toy.sqrt_approx Toy.log_approx toy2 0).
  apply toy2_reachable.
Defined.

Lemma toy2_iterated : titerated 2 toy2.
Proof.
  apply (iterated_S _ _ _ _ _ 1 toy1 (rng toy1) 5 Toy.start (Toy.mkBattle 0 0) toy2);
    [|reflexivity|reflexivity].
  apply (iterated_S _ _ _ _ _ 0 toy0 (rng toy0) 5 Toy.start (Toy.mkBattle 0 4) toy1);
    [|reflexivity|reflexivity].
  apply iterated_O.
Defined.

Lemma root_visits_iterations_witness :
  titerated 2 toy2
  /\ visits (node toy2 0) = 2 /\ backprop_count 0 (trace toy2) = 2.
Proof.
  split; [apply toy2_iterated|].
  apply (root_visits_iterations Toy.key Toy.get_actions Toy.step Toy.ended Toy.score
           2 toy2 toy2_iterated).
Defined.

(** A run of C7: both actions of [Toy.start] have a child at the root of
    [toy2]; a third [step] leaves the root's dictionary as it is. *)
Lemma step_explored_descends_witness :
  treachable toy2
  /\ 0 < length (heap toy2)
  /\ (forall a, a ∈ Toy.get_actions Toy.start ->
        dict_mem (Toy.key a) (children (node toy2 0)) = true)
  /\ forall w', world_after (tstep 6 0 Toy.start toy2) = Some w' ->
                children (node w' 0) = children (node toy2 0).
Proof.
  assert (Hall : forall a, a ∈ Toy.get_actions Toy.start ->
                   dict_mem (Toy.key a) (children (node toy2 0)) = true).
  { intros a Ha.
    repeat (apply elem_of_cons in Ha as [->|Ha]; [reflexivity|]).
    by apply elem_of_nil in Ha. }
  assert (Hlen : 0 < length (heap toy2)) by (simpl; lia).
  split; [apply toy2_reachable|]. split; [exact Hlen|]. split; [exact Hall|].
  apply (step_explored_descends Toy.key Toy.get_actions Toy.step Toy.apply_action
           Toy.ended Toy.score Toy.sqrt_approx Toy.log_approx
           5 0 Toy.start toy2 toy2_reachable Hlen Hall).
Defined.

(** A run of C8 (scenario A). *)
Lemma two_iterations_two_children_witness :
  Toy.key Toy.X <> Toy.key Toy.Y
  /\ exists cx cy,
       dict_get (Toy.key Toy.X) (children (node toy2 0)) = Some cx
       /\ dict_get (Toy.key Toy.Y) (children (node toy2 0)) = Some cy
       /\ length (children (node toy2 0)) = 2
       /\ action (node toy2 cx) = Some Toy.X /\ visits (node toy2 cx) = 1
       /\ action (node toy2 cy) = Some Toy.Y /\ visits (node toy2 cy) = 1.
Proof.
  assert (Hkey : Toy.key Toy.X <> Toy.key Toy.Y) by (simpl; lia).
  split; [exact Hkey|].
  apply (two_iterations_two_children Toy.key Toy.get_actions Toy.step Toy.ended
           Toy.score (1 # 2) [0; 0; 1; 1; 0; 1] (rng toy1) 5 5 Toy.start Toy.start
           Toy.X Toy.Y (Toy.mkBattle 0 4) toy1 (Toy.mkBattle 0 0) toy2 Hkey);
    reflexivity.
Defined.

(** A run of C9: another state and another generator, the same answer. *)
Lemma get_best_state_independent_witness :
  children (node toy2 0) <> []
  /\ (tbest 0 Toy.start toy2).1 = (tbest 0 Toy.over (set_rng toy2 [7; 7])).1
  /\ (tbest 0 Toy.start toy2).2 = toy2
  /\ (tbest 0 Toy.over (set_rng toy2 [7; 7])).2 = set_rng toy2 [7; 7].
Proof.
  assert (Hne : children (node toy2 0) <> []) by discriminate.
  split; [exact Hne|].
  apply (get_best_state_independent Toy.get_actions 0 Toy.start Toy.over
           toy2 (set_rng toy2 [7; 7]) Hne); [reflexivity|].
  intros c Hc. repeat split; reflexivity.
Defined.



(** A run of C10: a fresh root and a battle that is over. *)
Lemma select_empty_raises_witness :
  children (node toy0 0) = [] /\ Toy.get_actions Toy.over = []
  /\ tselect 3 0 Toy.over toy0 = Raise ValueError toy0.
Proof.
  split; [reflexivity|]. split; [reflexivity|].
  destruct (select_empty_raises Toy.key Toy.get_actions Toy.step Toy.apply_action
              Toy.ended Toy.score Toy.sqrt_approx Toy.log_approx 2 0 Toy.over toy0)
    as [Hraise _].
  apply Hraise; reflexivity.
Defined.




(** * Runs of the further properties on the small battle *)

Notation "'trollout'" :=
  (rollout Toy.get_actions Toy.step Toy.ended Toy.score) (only parsing).
Notation "'texpand'" :=
  (expand Toy.key Toy.get_actions Toy.step Toy.ended Toy.score) (only parsing).
Notation "'tbackpropagate'" := (@backpropagate Toy.move nat) (only parsing).
Notation "'trun'" :=
  (run_iterations Toy.key Toy.get_actions Toy.step Toy.ended Toy.score
                  Toy.copy_undeterministic) (only parsing).
(** [toy2] after a third [step], after a [backpropagate] of 7 from node
    2, after a [rollout] from node 1, and [toy1] after an [expand] on the
    second instance of X. *)
Notation "'toy3'" := (settle (tstep 5 0 Toy.start toy2) toy0) (only parsing).
Notation "'back2'" := (settle (tbackpropagate 5 2 7%Q toy2) toy0) (only parsing).
Notation "'roll2'" := (settle (trollout 5 1 Toy.start toy2) toy0) (only parsing).
Notation "'twin1'" := (settle (texpand 5 0 Toy.start [Toy.X2] toy1) toy0) (only parsing).
(** The same two iterations with exploration parameter 0. *)
Notation "'greedy0'" := (fresh 0 [0; 0; 1; 1; 0; 1] : @World Toy.move nat) (only parsing).
Notation "'greedy1'" := (settle (tstep 5 0 Toy.start greedy0) greedy0) (only parsing).
Notation "'greedy2'" := (settle (tstep 5 0 Toy.start greedy1) greedy0) (only parsing).

Lemma step_never_raises_witness :
  tstep 5 0 Toy.start toy2 <> Raise IndexError toy2.
Proof.
  apply (step_never_raises Toy.key Toy.get_actions Toy.step Toy.ended Toy.score).
Defined.

Lemma step_only_appends_witness :
  treachable toy2 /\ 0 < length (heap toy2)
  /\ grows toy2 toy3 /\ keeps_children toy2 toy3.
Proof.
  assert (Hn : 0 < length (heap toy2)) by (simpl; lia).
  split; [apply toy2_reachable|]. split; [exact Hn|].
  apply (step_only_appends Toy.key Toy.get_actions Toy.step Toy.apply_action
           Toy.ended Toy.score Toy.sqrt_approx Toy.log_approx
           5 0 Toy.start toy2 (Toy.mkBattle 0 2) toy3); [exact toy2_reachable | exact Hn | reflexivity].
Defined.

Lemma step_one_node_per_rollout_witness :
  treachable toy2 /\ 0 < length (heap toy2)
  /\ exists k, k <= 1
       /\ rollout_count (trace toy3) = k + rollout_count (trace toy2)
       /\ length (heap toy3) = k + length (heap toy2)
       /\ visits (node toy3 0) = k + visits (node toy2 0).
Proof.
  assert (Hn : 0 < length (heap toy2)) by (simpl; lia).
  split; [apply toy2_reachable|]. split; [exact Hn|].
  apply (step_one_node_per_rollout Toy.key Toy.get_actions Toy.step Toy.apply_action
           Toy.ended Toy.score Toy.sqrt_approx Toy.log_approx
           5 0 Toy.start toy2 (Toy.mkBattle 0 2) toy3); [exact toy2_reachable | exact Hn | reflexivity].
Defined.

Lemma backpropagate_along_path_witness :
  treachable toy2 /\ 2 < length (heap toy2)
  /\ ancestors 3 toy2 2 = [2; 0]
  /\ results (node back2 2) = results (node toy2 2) ++ [7%Q]
  /\ results (node back2 0) = results (node toy2 0) ++ [7%Q]
  /\ node back2 1 = node toy2 1.
Proof.
  assert (Hn : 2 < length (heap toy2)) by (simpl; lia).
  split; [apply toy2_reachable|]. split; [exact Hn|]. split; [reflexivity|].
  assert (Hrun : tbackpropagate 5 2 7%Q toy2 = Ok tt back2) by reflexivity.
  destruct (backpropagate_along_path Toy.key Toy.get_actions Toy.step
              Toy.apply_action Toy.ended Toy.score Toy.sqrt_approx Toy.log_approx
              5 2 7%Q toy2 tt back2 toy2_reachable Hn Hrun)
    as (Hon & Hoff & _).
  split; [|split].
  - apply (Hon 2). apply list_elem_of_here.
  - apply (Hon 0). apply list_elem_of_further, list_elem_of_here.
  - apply (Hoff 1). intros Hin.
    apply elem_of_cons in Hin as [Hin|Hin]; [discriminate|].
    apply elem_of_cons in Hin as [Hin|Hin]; [discriminate|].
    by apply elem_of_nil in Hin.
Defined.

Lemma rollout_records_final_score_witness :
  treachable toy2 /\ 1 < length (heap toy2)
  /\ (Toy.ended (Toy.mkBattle 0 2) = true \/ Toy.get_actions (Toy.mkBattle 0 2) = [])
  /\ results (node roll2 1) = results (node toy2 1) ++ [Toy.score (Toy.mkBattle 0 2)]
  /\ results (node roll2 0) = results (node toy2 0) ++ [Toy.score (Toy.mkBattle 0 2)]
  /\ length (heap roll2) = length (heap toy2)
  /\ forall m, children (node roll2 m) = children (node toy2 m).
Proof.
  assert (Hn : 1 < length (heap toy2)) by (simpl; lia).
  split; [apply toy2_reachable|]. split; [exact Hn|].
  apply (rollout_records_final_score Toy.key Toy.get_actions Toy.step
           Toy.apply_action Toy.ended Toy.score Toy.sqrt_approx Toy.log_approx
           5 1 Toy.start toy2 (Toy.mkBattle 0 2) roll2); [exact toy2_reachable | exact Hn | reflexivity].
Defined.

Lemma rollout_terminal_state_witness :
  treachable toy2 /\ 1 < length (heap toy2)
  /\ (Toy.ended Toy.over = true \/ Toy.get_actions Toy.over = [])
  /\ exists w',
       trollout 5 1 Toy.over toy2 = Ok Toy.over w'
       /\ rng w' = rng toy2
       /\ results (node w' 1) = results (node toy2 1) ++ [Toy.score Toy.over]
       /\ visits (node w' 1) = S (visits (node toy2 1)).
Proof.
  assert (Hn : 1 < length (heap toy2)) by (simpl; lia).
  assert (Hover : Toy.ended Toy.over = true \/ Toy.get_actions Toy.over = []).
  { left. reflexivity. }
  split; [apply toy2_reachable|]. split; [exact Hn|]. split; [exact Hover|].
  apply (rollout_terminal_state Toy.key Toy.get_actions Toy.step
           Toy.apply_action Toy.ended Toy.score Toy.sqrt_approx Toy.log_approx
           5 1 Toy.over toy2 toy2_reachable Hn ltac:(lia) Hover).
Defined.

Lemma expand_new_node_witness :
  treachable toy1 /\ 0 < length (heap toy1)
  /\ exists a,
       a ∈ [Toy.X2]
       /\ [Toy.X2] !! ((draw (rng toy1)).1 mod length [Toy.X2]) = Some a
       /\ length (heap twin1) = S (length (heap toy1))
       /\ node twin1 (length (heap toy1))
          = mkNode (param (node toy1 0)) (Some 0) (Some a) []
                   [Toy.score (Toy.mkBattle 0 2)] 1.
Proof.
  assert (Hn : 0 < length (heap toy1)) by (simpl; lia).
  split; [apply toy1_reachable|]. split; [exact Hn|].
  apply (expand_new_node Toy.key Toy.get_actions Toy.step
           Toy.apply_action Toy.ended Toy.score Toy.sqrt_approx Toy.log_approx
           5 0 Toy.start [Toy.X2] toy1 (Toy.mkBattle 0 2) twin1); [exact toy1_reachable | exact Hn | reflexivity].
Defined.

(** The root of [toy1] has a child under the key of X; expanding on X2,
    which has that key, leaves one entry. *)
Lemma expand_dictionary_witness :
  treachable toy1 /\ 0 < length (heap toy1)
  /\ length (children (node toy1 0)) = 1
  /\ length (children (node twin1 0)) = 1
  /\ exists a,
       a ∈ [Toy.X2]
       /\ dict_get (Toy.key a) (children (node twin1 0)) = Some (length (heap toy1))
       /\ (forall k, k <> Toy.key a ->
             dict_get k (children (node twin1 0)) = dict_get k (children (node toy1 0)))
       /\ length (children (node twin1 0))
          = (if dict_mem (Toy.key a) (children (node toy1 0))
             then length (children (node toy1 0))
             else S (length (children (node toy1 0))))
       /\ NoDup (dict_keys (children (node twin1 0))).
Proof.
  assert (Hn : 0 < length (heap toy1)) by (simpl; lia).
  split; [apply toy1_reachable|]. split; [exact Hn|].
  split; [reflexivity|]. split; [reflexivity|].
  apply (expand_dictionary Toy.key Toy.get_actions Toy.step
           Toy.apply_action Toy.ended Toy.score Toy.sqrt_approx Toy.log_approx
           5 0 Toy.start [Toy.X2] toy1 (Toy.mkBattle 0 2) twin1); [exact toy1_reachable | exact Hn | reflexivity].
Defined.

Lemma expand_raises_iff_empty_witness :
  texpand 5 0 Toy.start [] toy1 = Raise IndexError toy1.
Proof.
  apply (expand_raises_iff_empty Toy.key Toy.get_actions Toy.step Toy.ended Toy.score
           5 0 Toy.start [] toy1 IndexError toy1).
  repeat split.
Defined.

Lemma sel0_reachable : treachable sel0.
Proof. apply reach_fresh. Defined.

Lemma select_expands_once_witness :
  treachable sel0 /\ 0 < length (heap sel0)
  /\ rollout_count (trace sel1) = S (rollout_count (trace sel0))
  /\ length (heap sel1) = S (length (heap sel0))
  /\ visits (node sel1 0) = S (visits (node sel0 0)).
Proof.
  assert (Hn : 0 < length (heap sel0)) by (simpl; lia).
  split; [apply sel0_reachable|]. split; [exact Hn|].
  apply (select_expands_once Toy.key Toy.get_actions Toy.step
           Toy.apply_action Toy.ended Toy.score Toy.sqrt_approx Toy.log_approx
           5 0 Toy.start sel0 (Toy.mkBattle 0 4) sel1); [exact sel0_reachable | exact Hn | reflexivity].
Defined.

Lemma select_raises_only_ValueError_witness :
  treachable sel0 /\ 0 < length (heap sel0)
  /\ tselect 4 0 Toy.over sel0 = Raise ValueError sel0
  /\ ValueError = ValueError /\ sel0 = sel0.
Proof.
  assert (Hn : 0 < length (heap sel0)) by (simpl; lia).
  split; [apply sel0_reachable|]. split; [exact Hn|]. split; [reflexivity|].
  apply (select_raises_only_ValueError Toy.key Toy.get_actions Toy.step
           Toy.apply_action Toy.ended Toy.score Toy.sqrt_approx Toy.log_approx
           4 0 Toy.over sel0 ValueError sel0); [exact sel0_reachable | exact Hn | reflexivity].
Defined.



Lemma get_best_answers_witness :
  treachable toy2 /\ children (node toy2 0) <> []
  /\ exists k c a,
       (k, c) ∈ children (node toy2 0)
       /\ 0 < visits (node toy2 c)
       /\ action (node toy2 c) = Some a /\ Toy.key a = k
       /\ tbest 0 Toy.over toy2 = (Some a, toy2).
Proof.
  assert (Hne : children (node toy2 0) <> []) by discriminate.
  split; [apply toy2_reachable|]. split; [exact Hne|].
  apply (get_best_answers Toy.key Toy.get_actions Toy.step
           Toy.apply_action Toy.ended Toy.score Toy.sqrt_approx Toy.log_approx
           0 Toy.over toy2 toy2_reachable Hne).
Defined.

Lemma print_tree_shape_witness :
  print_tree Toy.key 5 toy2 0 0
  = Some [TreeLine 0 None 2 (4 # 2); TreeLine 1 (Some 0) 1 4; TreeLine 1 (Some 1) 1 0]
  /\ exists rest,
       [TreeLine 0 None 2 (4 # 2); TreeLine 1 (Some 0) 1 4; TreeLine 1 (Some 1) 1 0]
       = TreeLine 0 (Toy.key <$> action (node toy2 0)) (visits (node toy2 0))
                  (if Nat.ltb 0 (visits (node toy2 0)) then mean (node toy2 0) else 0%Q)
         :: rest
       /\ Forall (fun l => exists i, line_indent l = Some i /\ 0 < i) rest.
Proof.
  split; [reflexivity|].
  apply (print_tree_shape Toy.key 5 toy2 0 0). reflexivity.
Defined.

Lemma print_tree_returns_witness :
  treachable toy2 /\ length (heap toy2) <= 3
  /\ is_Some (print_tree Toy.key 3 toy2 0 0).
Proof.
  assert (Hlen : length (heap toy2) <= 3) by (simpl; lia).
  split; [apply toy2_reachable|]. split; [exact Hlen|].
  apply (print_tree_returns Toy.key Toy.get_actions Toy.step
           Toy.apply_action Toy.ended Toy.score Toy.sqrt_approx Toy.log_approx
           3 toy2 0 0 toy2_reachable Hlen).
Defined.

Lemma search_loop_budget_witness :
  trun 5 2 Toy.start toy0 = Ok tt toy2
  /\ treachable toy2
  /\ visits (node toy2 0) <= 2
  /\ visits (node toy2 0) = rollout_count (trace toy2)
  /\ length (heap toy2) = S (visits (node toy2 0)).
Proof.
  split; [reflexivity|].
  apply (search_loop_budget Toy.key Toy.get_actions Toy.step
           Toy.apply_action Toy.ended Toy.score Toy.sqrt_approx Toy.log_approx
           Toy.copy_undeterministic 5 2 Toy.start (1 # 2) [0; 0; 1; 1; 0; 1] toy2).
  reflexivity.
Defined.


Lemma choose_card_fails_only_in_fallback_witness :
  tchoose 5 3 false (1 # 2) [] Toy.over [0; 1] = Failed IndexError [TextLine warning]
  /\ IndexError = IndexError
  /\ Toy.get_choose_card_options [] Toy.over = []
  /\ exists lines, [TextLine warning] = lines ++ [@TextLine nat warning].
Proof.
  split; [reflexivity|].
  apply (choose_card_fails_only_in_fallback Toy.key Toy.get_actions Toy.step
           Toy.ended Toy.score Toy.to_action Toy.copy_undeterministic
           Toy.get_choose_card_options 5 3 false (1 # 2) [] Toy.over [0; 1]
           IndexError [TextLine warning]).
  reflexivity.
Defined.

Lemma choose_card_verbose_same_decision_witness :
  tchoose 5 2 true (1 # 2) [Toy.Y] Toy.start [0; 0; 1; 1; 0; 1]
  = Decided Toy.X
            [TreeLine 0 None 2 (4 # 2); TreeLine 1 (Some 0) 1 4; TreeLine 1 (Some 1) 1 0]
            [0; 1]
  /\ exists lines out',
       [TreeLine 0 None 2 (4 # 2); TreeLine 1 (Some 0) 1 4; TreeLine 1 (Some 1) 1 0]
       = lines ++ out'
       /\ Forall (fun l => line_indent l <> None) lines
       /\ tchoose 5 2 false (1 # 2) [Toy.Y] Toy.start [0; 0; 1; 1; 0; 1]
          = Decided Toy.X out' [0; 1].
Proof.
  split; [reflexivity|].
  apply (choose_card_verbose_same_decision Toy.key Toy.get_actions Toy.step
           Toy.ended Toy.score Toy.to_action Toy.copy_undeterministic
           Toy.get_choose_card_options 5 2 (1 # 2) [Toy.Y] Toy.start
           [0; 0; 1; 1; 0; 1]).
  reflexivity.
Defined.

(** In the small battle the turns left measure the distance to the end. *)
Lemma toy_turns_step s a :
  a ∈ Toy.get_actions s -> Toy.turns (Toy.step s a) < Toy.turns s.
Proof.
  destruct s as [[|t] pts]; simpl.
  - intros Ha. by apply elem_of_nil in Ha.
  - intros _. lia.
Defined.

Lemma toy_turns_copy (s : Toy.battle) (g : list nat) :
  Toy.turns (Toy.copy_undeterministic s g).1 <= Toy.turns s.
Proof. simpl. lia. Defined.

Lemma choose_card_decides_witness :
  Toy.turns Toy.start + 7 + 1 <= 10
  /\ Toy.get_choose_card_options [Toy.Y] Toy.start <> []
  /\ exists d out g',
       tchoose 10 7 true (1 # 2) [Toy.Y] Toy.start [0; 0; 1; 1; 0; 1]
       = Decided d out g'.
Proof.
  assert (Hfuel : Toy.turns Toy.start + 7 + 1 <= 10) by (simpl; lia).
  assert (Hopts : Toy.get_choose_card_options [Toy.Y] Toy.start <> []) by discriminate.
  split; [exact Hfuel|]. split; [exact Hopts|].
  apply (choose_card_decides Toy.key Toy.get_actions Toy.step Toy.ended Toy.score
           Toy.to_action Toy.copy_undeterministic Toy.get_choose_card_options
           Toy.turns toy_turns_step toy_turns_copy
           10 7 true (1 # 2) [Toy.Y] Toy.start [0; 0; 1; 1; 0; 1] Hfuel Hopts).
Defined.



Lemma toy3_stepped : stepped Toy.key Toy.get_actions Toy.step Toy.ended Toy.score toy3.
Proof.
  apply (stepped_step _ _ _ _ _ toy2 5 0 Toy.start (Toy.mkBattle 0 2));
    [|simpl; lia|reflexivity].
  apply (stepped_step _ _ _ _ _ toy1 5 0 Toy.start (Toy.mkBattle 0 0));
    [|simpl; lia|reflexivity].
  apply (stepped_step _ _ _ _ _ toy0 5 0 Toy.start (Toy.mkBattle 0 4));
    [|simpl; lia|reflexivity].
  apply stepped_fresh.
Defined.

(** In [toy3] the root has 3 visits, its children 2 and 1; the child of
    X has 2 visits, one its own and one of its child. *)
Lemma visits_add_up_witness :
  stepped Toy.key Toy.get_actions Toy.step Toy.ended Toy.score toy3
  /\ 1 < length (heap toy3)
  /\ visits (node toy3 1) = 2 /\ child_visits toy3 1 = 1
  /\ visits (node toy3 1) = own_visit 1 + child_visits toy3 1.
Proof.
  assert (Hn : 1 < length (heap toy3)) by (simpl; lia).
  split; [apply toy3_stepped|]. split; [exact Hn|].
  split; [reflexivity|]. split; [reflexivity|].
  apply (visits_add_up Toy.key Toy.get_actions Toy.step Toy.ended Toy.score
           toy3 1 toy3_stepped Hn).
Defined.
